(** * Tic-Tac-Toe engine of [script.js]: game state and alpha-beta search

    A shallow embedding of the class [TicTacToe] of [src/script.js]
    (constructor, [turn], [validMoves], [play], [takeBack], [minimax],
    [goodMove]) together with the regular expression that [play] uses to
    detect a win, of the functions that drive the game from the page
    ([display], [computerMove], [humanMove], [newGame] and the event
    handlers), and the properties of both.

    JavaScript numbers that the class handles are integers (cell marks,
    cell indices, lengths, the values -10 and 0) and the two infinities
    used as the initial search window; integers are [Z], and the search
    values are [num], [Z] extended with the two infinities.  The object is
    mutated in place by the source; here every operation takes the state
    and returns the new one. *)

From Stdlib Require Import ZArith Ascii String DecimalString Bool List Lia Sorted.
From stdpp Require Import base list.

Local Open Scope Z_scope.

(** ** Regular expressions, as far as the win test needs them *)

Module RegExp.

(** The syntax covers what the pattern of [play] is made of: [.], a
    character class, [^], sequencing, [|], [(?:r)*], [r?], a capture group
    and a back reference. *)
Inductive regex : Type :=
| Any
| Class (cs : list ascii)
| Bol
| Empty
| Seq (r1 r2 : regex)
| Alt (r1 r2 : regex)
| Star (r : regex)
| Opt (r : regex)
| Group (n : nat) (r : regex)
| Backref (n : nat).

(** The state of one match attempt: the number of characters before the
    current position, the characters from the current position on, and
    the substrings captured so far. *)
Record mstate : Type := MState {
  pos : nat;
  rest : list ascii;
  caps : list (nat * list ascii)
}.

Definition advance (n : nat) (s : mstate) : mstate :=
  MState (pos s + n) (drop n (rest s)) (caps s).

Definition capture (n : nat) (w : list ascii) (s : mstate) : mstate :=
  MState (pos s) (rest s) ((n, w) :: caps s).

Fixpoint captured (n : nat) (cs : list (nat * list ascii)) : option (list ascii) :=
  match cs with
  | [] => None
  | (m, w) :: cs' => if Nat.eqb m n then Some w else captured n cs'
  end.

(** [.] matches every character but a line terminator. *)
Definition is_line_terminator (c : ascii) : bool :=
  Ascii.eqb c "010"%char || Ascii.eqb c "013"%char.

Definition in_class (c : ascii) (cs : list ascii) : bool :=
  existsb (Ascii.eqb c) cs.

Fixpoint starts_with (w l : list ascii) : bool :=
  match w, l with
  | [], _ => true
  | a :: w', b :: l' => Ascii.eqb a b && starts_with w' l'
  | _ :: _, [] => false
  end.

(** The iterations of a star whose body is matched by [body], followed
    by the continuation [k]: one more iteration first, then none.  An
    iteration that does not move the position forward is rejected. *)
Section StarIter.

Variable body : mstate -> (mstate -> bool) -> bool.
Variable k : mstate -> bool.

Fixpoint star_iter (fuel : nat) (s0 : mstate) {struct fuel} : bool :=
  match fuel with
  | O => k s0
  | S fuel' =>
      body s0 (fun s1 => if Nat.ltb (pos s0) (pos s1) then star_iter fuel' s1 else false)
      || k s0
  end.

End StarIter.

(** Backtracking matcher in continuation-passing style: [rmatch r s k]
    holds when [r] matches at [s] in a way that lets the continuation [k]
    succeed too.  Alternatives are tried left to right and the quantifiers
    are greedy, as in the source language.  Every accepted iteration of
    a star consumes a character, so the number of remaining characters
    bounds the number of iterations (lemma [star_fuel_enough]).  A back
    reference to a group that has captured nothing matches the empty
    string. *)
Fixpoint rmatch (r : regex) (s : mstate) (k : mstate -> bool) {struct r} : bool :=
  match r with
  | Any =>
      match rest s with
      | c :: _ => if is_line_terminator c then false else k (advance 1 s)
      | [] => false
      end
  | Class cs =>
      match rest s with
      | c :: _ => if in_class c cs then k (advance 1 s) else false
      | [] => false
      end
  | Bol => if Nat.eqb (pos s) 0 then k s else false
  | Empty => k s
  | Seq r1 r2 => rmatch r1 s (fun s1 => rmatch r2 s1 k)
  | Alt r1 r2 => rmatch r1 s k || rmatch r2 s k
  | Opt r1 => rmatch r1 s k || k s
  | Star r1 => star_iter (rmatch r1) k (length (rest s)) s
  | Group n r1 =>
      rmatch r1 s (fun s1 => k (capture n (take (pos s1 - pos s) (rest s)) s1))
  | Backref n =>
      match captured n (caps s) with
      | None => k s
      | Some w => if starts_with w (rest s) then k (advance (length w) s) else false
      end
  end.

(** [RegExp.prototype.test] without flags: a match may start at any
    index of the string, tried from index 0 on. *)
Fixpoint test_from (r : regex) (p : nat) (l : list ascii) : bool :=
  rmatch r (MState p l []) (fun _ => true)
  || match l with
     | [] => false
     | _ :: l' => test_from r (S p) l'
     end.

Definition test (r : regex) (str : string) : bool :=
  test_from r 0 (list_ascii_of_string str).

Fixpoint seq (rs : list regex) : regex :=
  match rs with
  | [] => Empty
  | [r] => r
  | r :: rs' => Seq r (seq rs')
  end.

End RegExp.

Import RegExp.

(** The pattern of [play]:
    [/^(?:...)*([12])\1\1|^.?.?([12])..\2..\2|^([12])...\3...\3|^..([12]).\4.\4/] *)
Definition mark : regex := Class ["1"%char; "2"%char].

Definition win_pattern : regex :=
  Alt (seq [Bol; Star (seq [Any; Any; Any]); Group 1 mark; Backref 1; Backref 1])
 (Alt (seq [Bol; Opt Any; Opt Any; Group 2 mark; Any; Any; Backref 2; Any; Any; Backref 2])
 (Alt (seq [Bol; Group 3 mark; Any; Any; Any; Backref 3; Any; Any; Any; Backref 3])
      (seq [Bol; Any; Any; Group 4 mark; Any; Backref 4; Any; Backref 4]))).

(** ** Arrays of numbers *)

(** [a[i]]: the element, or nothing ([undefined]) when the array has no
    element at [i]. *)
Definition get (a : list Z) (i : Z) : option Z :=
  if 0 <=? i then a !! Z.to_nat i else None.

(** [a[i] !== 0] *)
Definition not_zero (x : option Z) : bool :=
  match x with
  | Some c => negb (c =? 0)
  | None => true
  end.

(** [a[i] = v], for an index of the array.  The source writes a cell in
    two places: [play] writes at an index it has just read the number 0
    from, and [takeBack] writes at an index that [play] pushed.  Lemmas
    [play_index_in_range] and [takeBack_index_in_range] show that both
    are indices of the array, so the growth of a JavaScript array under a
    write past its end never occurs. *)
Definition set (a : list Z) (i : Z) (v : Z) : list Z :=
  <[Z.to_nat i := v]> a.

(** [a.join("")]: the decimal texts of the numbers, concatenated. *)
Definition number_text (c : Z) : string :=
  NilZero.string_of_int (Z.to_int c).

Definition join (a : list Z) : string :=
  String.concat "" (map number_text a).

(** ** The game state *)

Record TicTacToe : Type := Game {
  board : list Z;
  moves : list Z;
  isWin : bool;
  isDraw : bool
}.

(** [constructor()] *)
Definition new_game : TicTacToe :=
  Game (replicate 9 0) [] false false.

(** [get turn()] *)
Definition turn (g : TicTacToe) : Z :=
  1 + Z.of_nat (length (moves g)) mod 2.

(** [get validMoves()] *)
Definition validMoves (g : TicTacToe) : list Z :=
  List.filter (fun index => negb (index =? -1))
    (imap (fun index cell => if cell =? 0 then Z.of_nat index else -1) (board g)).

(** [play(move)]: the returned boolean and the state afterwards. *)
Definition play (move : Z) (g : TicTacToe) : bool * TicTacToe :=
  if not_zero (get (board g) move) || isWin g then (false, g)
  else
    let board1 := set (board g) move (turn g) in
    let moves1 := moves g ++ [move] in
    let isWin1 := RegExp.test win_pattern (join board1) in
    let isDraw1 := negb isWin1 && Nat.eqb (length moves1) (length board1) in
    (true, Game board1 moves1 isWin1 isDraw1).

(** [takeBack()]: [last] is nothing exactly when [moves.length === 0];
    otherwise [moves.pop()] returns the last entry and leaves the entries
    before it. *)
Definition takeBack (g : TicTacToe) : bool * TicTacToe :=
  match last (moves g) with
  | None => (false, g)
  | Some move => (true, Game (set (board g) move 0) (removelast (moves g)) false false)
  end.

(** ** The search *)

(** Search values: integers and the two infinities.  The negative zero
    of JavaScript, which the search produces by negating 0, is equal to
    zero in every comparison the search makes; the two are one value
    here. *)
Inductive num : Type :=
| NegInf
| Fin (z : Z)
| PosInf.

Module Num.

(** Unary minus. *)
Definition neg (x : num) : num :=
  match x with
  | NegInf => PosInf
  | Fin z => Fin (- z)
  | PosInf => NegInf
  end.

(** [x >= y] *)
Definition geb (x y : num) : bool :=
  match x, y with
  | _, NegInf => true
  | PosInf, _ => true
  | Fin a, Fin b => b <=? a
  | NegInf, _ => false
  | Fin _, PosInf => false
  end.

(** [x > y] *)
Definition gtb (x y : num) : bool := negb (geb y x).

(** [Math.max(x, y)] *)
Definition max (x y : num) : num := if geb x y then x else y.

End Num.

(** The object that [minimax] returns: [{ value }] at a leaf, where the
    property [moves] is absent, and [{ value, moves }] otherwise. *)
Record result : Type := Result {
  value : num;
  best_moves : option (list Z)
}.

(** What a call does: it returns, or it throws a [TypeError]. *)
Inductive outcome (A : Type) : Type :=
| Ret (a : A)
| TypeError.

Arguments Ret {A} a.
Arguments TypeError {A}.

Section Search.

(** The recursive call [this.minimax(depth - 1, ., .)]. *)
Variable recurse : num -> num -> TicTacToe -> outcome (result * TicTacToe).

(** The loop [for (let move of this.validMoves)] of [minimax], from the
    move list still to visit, with the current [alpha], [best] and game
    state.  [best.moves.push(move)] throws when [best] has no [moves]. *)
Fixpoint for_moves (ms : list Z) (alpha beta : num) (best : result)
    (g : TicTacToe) {struct ms} : outcome (result * TicTacToe) :=
  match ms with
  | [] => Ret (best, g)
  | move :: ms' =>
      let g1 := snd (play move g) in
      match recurse (Num.neg beta) (Num.neg alpha) g1 with
      | TypeError => TypeError
      | Ret (child, g2) =>
          let g3 := snd (takeBack g2) in
          let v := Num.neg (value child) in
          let alpha1 := Num.max alpha v in
          if Num.geb alpha1 beta then Ret (best, g3)
          else if Num.geb v (value best) then
            let best1 := if Num.gtb v (value best) then Result v (Some []) else best in
            match best_moves best1 with
            | None => TypeError
            | Some l => for_moves ms' alpha1 beta (Result (value best1) (Some (l ++ [move]))) g3
            end
          else for_moves ms' alpha1 beta best g3
      end
  end.

End Search.

(** The object returned when the test [isWin || isDraw || depth === 0]
    holds. *)
Definition leaf (g : TicTacToe) : result :=
  if isWin g then Result (Fin (-10)) None
  else if isDraw g then Result (Fin 0) None
  else Result (Fin 0) None.

(** [minimax(depth, alpha, beta)]: the returned object and the state
    afterwards.  The depth is a natural number, as the interface asks
    for; the first case is [depth === 0]. *)
Fixpoint minimax (depth : nat) (alpha beta : num) (g : TicTacToe)
    {struct depth} : outcome (result * TicTacToe) :=
  match depth with
  | O => Ret (leaf g, g)
  | S depth' =>
      if isWin g || isDraw g then Ret (leaf g, g)
      else for_moves (minimax depth') (validMoves g) alpha beta (Result NegInf None) g
  end.

(** [goodMove(depth)].  [random_index n] stands for
    [Math.floor(Math.random() * n)].  Reading [moves.length] throws when
    [moves] is [undefined]; [moves[i]] is [undefined] ([None]) when the
    array has no element at [i]. *)
Definition goodMove (random_index : nat -> nat) (depth : nat) (g : TicTacToe)
    : outcome (option Z * TicTacToe) :=
  match minimax depth NegInf PosInf g with
  | TypeError => TypeError
  | Ret (r, g') =>
      match best_moves r with
      | None => TypeError
      | Some ms => Ret (ms !! random_index (length ms), g')
      end
  end.

(** ** Search without pruning

    The reference the alpha-beta search is compared with: the search of
    the specification with the window left out, that is negamax to the
    given depth over every valid move, collecting the moves that reach the
    best value.  It works on copies of the state. *)

Section Unpruned.

Variable recurse : TicTacToe -> result.

Fixpoint collect_best (ms : list Z) (best : result) (g : TicTacToe) : result :=
  match ms with
  | [] => best
  | move :: ms' =>
      let v := Num.neg (value (recurse (snd (play move g)))) in
      if Num.gtb v (value best) then collect_best ms' (Result v (Some [move])) g
      else if Num.geb v (value best) then
        collect_best ms'
          (Result (value best) (option_map (fun l => l ++ [move]) (best_moves best))) g
      else collect_best ms' best g
  end.

End Unpruned.

Fixpoint unpruned_minimax (depth : nat) (g : TicTacToe) : result :=
  if isWin g then Result (Fin (-10)) None
  else if isDraw g then Result (Fin 0) None
  else
    match depth with
    | O => Result (Fin 0) None
    | S depth' => collect_best (unpruned_minimax depth') (validMoves g) (Result NegInf None) g
    end.

(** ** Reachable states *)

(** The states a game can be in: those obtained from a fresh game by
    calls of [play], with any argument, and of [takeBack].  A search
    leaves the state as it found it (lemma [minimax_returns]). *)
Inductive reachable : TicTacToe -> Prop :=
| reach_new : reachable new_game
| reach_play move g : reachable g -> reachable (snd (play move g))
| reach_takeBack g : reachable g -> reachable (snd (takeBack g)).

(** The state after [play] has been called with each of the given
    arguments in turn, from a fresh game. *)
Definition plays (ms : list Z) : TicTacToe :=
  fold_left (fun g m => snd (play m g)) ms new_game.

(** ** The win test, enumerated *)

(** The winning lines, as triples of cell indices: rows, columns and
    diagonals. *)
Definition winning_triples : list (nat * nat * nat) :=
  [(0, 1, 2); (3, 4, 5); (6, 7, 8); (0, 3, 6); (1, 4, 7); (2, 5, 8); (0, 4, 8); (2, 4, 6)]%nat.

(** Three equal non-empty cells at the indices of a triple. *)
Definition line_full (b : list Z) (t : nat * nat * nat) : bool :=
  match t with
  | (i, j, k) =>
      match b !! i, b !! j, b !! k with
      | Some x, Some y, Some z => negb (x =? 0) && (x =? y) && (y =? z)
      | _, _, _ => false
      end
  end.

(** The win test as an enumeration of the eight triples. *)
Definition has_line (b : list Z) : bool :=
  existsb (line_full b) winning_triples.

(** The number of non-empty cells of a board. *)
Definition occupied (b : list Z) : nat :=
  length (List.filter (fun c => negb (c =? 0)) b).

(** ** Definitions used by the properties *)

(** [within s s1]: the match state [s1] lies at or after [s] in the
    same text. *)
Definition within (s s1 : mstate) : Prop :=
  (pos s <= pos s1)%nat
  /\ (pos s1 + length (rest s1) = pos s + length (rest s))%nat.

(** The state after a successful [play]. *)
Definition played (move : Z) (g : TicTacToe) : TicTacToe :=
  let board1 := set (board g) move (turn g) in
  Game board1 (moves g ++ [move])
    (RegExp.test win_pattern (join board1))
    (negb (RegExp.test win_pattern (join board1))
     && Nat.eqb (length (moves g ++ [move])) (length board1)).

(** The invariant of the reachable states. *)
Record consistent (g : TicTacToe) : Prop := Consistent {
  c_cells : length (board g) = 9%nat;
  c_nodup : NoDup (moves g);
  c_mark : forall (k : nat) (m : Z),
      moves g !! k = Some m -> get (board g) m = Some (1 + Z.of_nat k mod 2);
  c_empty : forall i : nat,
      (i < 9)%nat -> Z.of_nat i ∉ moves g -> board g !! i = Some 0;
  c_count : occupied (board g) = length (moves g);
  c_draw : isDraw g = negb (isWin g) && Nat.eqb (length (moves g)) 9
}.

(** Every board of [n] cells over the three cell values. *)
Fixpoint all_boards (n : nat) : list (list Z) :=
  match n with
  | O => [[]]
  | S n' => flat_map (fun b => [0 :: b; 1 :: b; 2 :: b]) (all_boards n')
  end.

Definition is_cell (c : Z) : Prop := c = 0 \/ c = 1 \/ c = 2.

(** The pattern and the enumeration agree on a board. *)
Definition agree_on (b : list Z) : bool :=
  Bool.eqb (RegExp.test win_pattern (join b)) (has_line b).

(** The shape of [best] during the loop: its value is never plus
    infinity; while it has no move list its value is minus infinity, and
    its move list, once there, is not empty and holds allowed moves
    only. *)
Definition well_formed (allowed : list Z) (r : result) : Prop :=
  value r <> PosInf /\
  match best_moves r with
  | None => value r = NegInf
  | Some l => l <> [] /\ forall m, In m l -> In m allowed
  end.

(** ** Histories *)

(** A history every move of which was accepted by [play], in turn, from
    a fresh game. *)
Inductive legal : list Z -> Prop :=
| legal_nil : legal []
| legal_snoc ms move :
    legal ms -> fst (play move (plays ms)) = true -> legal (ms ++ [move]).

(** [takeBack], called [n] times. *)
Fixpoint undo (n : nat) (g : TicTacToe) : TicTacToe :=
  match n with
  | O => g
  | S n' => undo n' (snd (takeBack g))
  end.

(** The number of cells of a board that hold the mark [p]. *)
Definition marks (p : Z) (b : list Z) : nat :=
  length (List.filter (fun c => c =? p) b).

(** The valid moves of a board whose first cell has index [off]. *)
Definition valid_from (off : nat) (b : list Z) : list Z :=
  List.filter (fun index => negb (index =? -1))
    (imap (fun index cell => if cell =? 0 then Z.of_nat (off + index) else -1) b).

(** The values a search can return. *)
Definition search_value (v : num) : Prop :=
  v = NegInf \/ v = Fin (-10) \/ v = Fin 0 \/ v = Fin 10.

(** The shape of [best] when the moves [visited] have been looked at. *)
Definition best_among (visited : list Z) (r : result) : Prop :=
  search_value (value r)
  /\ match best_moves r with
     | None => value r = NegInf
     | Some l => l <> [] /\ l `sublist_of` visited
     end.

(** [move] wins at once: after [play(move)] the game is won. *)
Definition wins_at_once (g : TicTacToe) (move : Z) : Prop :=
  isWin (snd (play move g)) = true.

(** The shape of [best] in a search of depth 1 of the state [g]: no
    list yet, or a list of allowed moves that, when the value is 10, win
    at once. *)
Definition best_at_depth_1 (g : TicTacToe) (allowed : list Z) (r : result) : Prop :=
  (value r = NegInf /\ best_moves r = None)
  \/ exists l, best_moves r = Some l /\ l <> []
       /\ (forall m, In m l -> In m allowed)
       /\ (value r = Fin 0
           \/ (value r = Fin 10 /\ forall m, In m l -> wins_at_once g m)).

(** ** The page

    The part of the script that drives the game from the page: the
    variables [game] and [human], the function [display] as the text and
    the class names it writes, and the handlers of the events.  The
    callback that [computerMove] hands to [setTimeout] is a function of
    its own here, [cpu_plays], run when the timer fires. *)

Record Page : Type := MkPage {
  game : TicTacToe;
  human : Z
}.

(** [Math.floor(i / 3)] and [i % 3] of [display], and [row * 3 + col] of
    the click handler. *)
Definition cell_row (i : nat) : nat := (i / 3)%nat.
Definition cell_col (i : nat) : nat := (i mod 3)%nat.
Definition clicked_index (row col : nat) : nat := (row * 3 + col)%nat.

(** [" XO"[cell]] *)
Definition cell_class (cell : Z) : option ascii :=
  if 0 <=? cell then String.get (Z.to_nat cell) " XO" else None.

(** The text that [display] writes into the message area. *)
Definition message (p : Page) : string :=
  if isWin (game p) then
    (if turn (game p) =? human p then "CPU won"%string else "You won"%string)
  else if isDraw (game p) then "It's a draw"%string
  else if turn (game p) =? human p then "Your turn"%string
  else "CPU is preparing move..."%string.

(** The class name that [display] gives the table. *)
Definition table_class (p : Page) : string :=
  if isWin (game p) || isDraw (game p) || negb (turn (game p) =? human p)
  then "inactive"%string else EmptyString.

(** The cells that [display] paints: row, column and class name. *)
Definition painted_cells (p : Page) : list (nat * nat * option ascii) :=
  imap (fun i cell => (cell_row i, cell_col i, cell_class cell)) (board (game p)).

(** [newGame()] *)
Definition newGame : Page := MkPage new_game 1.

(** [computerMove()] up to the call of [setTimeout]: the page afterwards,
    and whether the callback has been scheduled. *)
Definition computerMove (p : Page) : Page * bool :=
  if isWin (game p) || isDraw (game p) then (p, false)
  else (MkPage (game p) (3 - turn (game p)), true).

(** [game.play(x)] for the value [x] that [goodMove] returned:
    [board[undefined]] is [undefined], which is not 0. *)
Definition play_value (x : option Z) (g : TicTacToe) : bool * TicTacToe :=
  match x with
  | Some move => play move g
  | None => (false, g)
  end.

(** The callback of [computerMove]:
    [game.play(game.goodMove(parseInt(depthLevelInput.value)))], for a
    depth field that holds a natural number. *)
Definition cpu_plays (random_index : nat -> nat) (depth : nat) (p : Page)
    : outcome Page :=
  match goodMove random_index depth (game p) with
  | TypeError => TypeError
  | Ret (x, g) => Ret (MkPage (snd (play_value x g)) (human p))
  end.

(** The page after the timer has fired: an exception in the callback
    leaves the variables as they were. *)
Definition after_timer (random_index : nat -> nat) (depth : nat) (p : Page) : Page :=
  match cpu_plays random_index depth p with
  | TypeError => p
  | Ret p' => p'
  end.

(** [humanMove(i)]: the page afterwards, and whether a callback has been
    scheduled. *)
Definition humanMove (i : Z) (p : Page) : Page * bool :=
  if negb (turn (game p) =? human p) then (p, false)
  else
    let (ok, g) := play i (game p) in
    if negb ok then (MkPage g (human p), false)
    else computerMove (MkPage g (human p)).

(** The handler of the undo button. *)
Definition undoMove (p : Page) : Page :=
  MkPage (snd (takeBack (game p))) (human p).

Definition scheduled (b : bool) : nat := if b then 1%nat else 0%nat.

(** The pages that events lead to, with the number of callbacks that
    are scheduled and have not run: the page is loaded, and then cells
    are clicked, the buttons are pressed, and timers fire. *)
Inductive page_reachable : Page -> nat -> Prop :=
| page_loaded : page_reachable newGame 0
| page_newGame p n : page_reachable p n -> page_reachable newGame n
| page_click p n i :
    page_reachable p n ->
    page_reachable (fst (humanMove i p)) (n + scheduled (snd (humanMove i p)))
| page_cpuMove p n :
    page_reachable p n ->
    page_reachable (fst (computerMove p)) (n + scheduled (snd (computerMove p)))
| page_undo p n : page_reachable p n -> page_reachable (undoMove p) n
| page_timer p n random_index depth :
    page_reachable p (S n) -> page_reachable (after_timer random_index depth p) n.

(** * Properties *)

(** ** The matcher *)

Lemma within_refl (s : mstate) : within s s.
Proof. split; reflexivity. Qed.

Lemma within_trans (s s1 s2 : mstate) : within s s1 -> within s1 s2 -> within s s2.
Proof. unfold within. lia. Qed.

Lemma within_advance (n : nat) (s : mstate) :
  (n <= length (rest s))%nat -> within s (advance n s).
Proof. intros H. unfold within, advance. simpl. rewrite length_drop. lia. Qed.

Lemma starts_with_length (w l : list ascii) :
  starts_with w l = true -> (length w <= length l)%nat.
Proof.
  revert l. induction w as [| a w IH]; intros [| b l]; simpl; try lia; try discriminate.
  intros H. apply andb_true_iff in H as [_ H]. apply IH in H. lia.
Qed.

Lemma star_iter_ext (body : mstate -> (mstate -> bool) -> bool) (k k' : mstate -> bool)
    (s : mstate) :
  (forall s0 c c', within s s0 ->
     (forall s1, within s0 s1 -> c s1 = c' s1) -> body s0 c = body s0 c') ->
  (forall s1, within s s1 -> k s1 = k' s1) ->
  forall fuel s0, within s s0 -> star_iter body k fuel s0 = star_iter body k' fuel s0.
Proof.
  intros Hbody Hk. induction fuel as [| fuel IH]; intros s0 Hs0; simpl.
  - now apply Hk.
  - f_equal; [| now apply Hk]. apply Hbody; [exact Hs0 |].
    intros s1 Hs1. destruct (Nat.ltb (pos s0) (pos s1)); [| reflexivity].
    apply IH. eapply within_trans; eassumption.
Qed.

(** The matcher looks at its continuation only at states at or after the
    current one. *)
Lemma rmatch_ext (r : regex) :
  forall (s : mstate) (k k' : mstate -> bool),
    (forall s1, within s s1 -> k s1 = k' s1) -> rmatch r s k = rmatch r s k'.
Proof.
  induction r as [| cs | | | r1 IH1 r2 IH2 | r1 IH1 r2 IH2 | r IH | r IH | n r IH | n];
    intros s k k' Hk; simpl.
  - destruct (rest s) as [| c l] eqn:Hrest; [reflexivity |].
    destruct (is_line_terminator c); [reflexivity |].
    apply Hk, within_advance. rewrite Hrest. simpl. lia.
  - destruct (rest s) as [| c l] eqn:Hrest; [reflexivity |].
    destruct (in_class c cs); [| reflexivity].
    apply Hk, within_advance. rewrite Hrest. simpl. lia.
  - destruct (Nat.eqb (pos s) 0); [apply Hk, within_refl | reflexivity].
  - apply Hk, within_refl.
  - apply IH1. intros s1 Hs1. apply IH2. intros s2 Hs2.
    apply Hk. eapply within_trans; eassumption.
  - f_equal; [now apply IH1 | now apply IH2].
  - apply (star_iter_ext (rmatch r) k k' s).
    + intros s0 c c' _ Hc. now apply IH.
    + exact Hk.
    + apply within_refl.
  - f_equal; [now apply IH | apply Hk, within_refl].
  - apply IH. intros s1 Hs1. apply Hk. exact Hs1.
  - destruct (captured n (caps s)) as [w |]; [| apply Hk, within_refl].
    destruct (starts_with w (rest s)) eqn:Hw; [| reflexivity].
    apply Hk, within_advance. now apply starts_with_length.
Qed.

Lemma rmatch_fails (r : regex) : forall s : mstate, rmatch r s (fun _ => false) = false.
Proof.
  induction r as [| cs | | | r1 IH1 r2 IH2 | r1 IH1 r2 IH2 | r IH | r IH | n r IH | n];
    intros s; simpl.
  - destruct (rest s) as [| c l]; [reflexivity |]. now destruct (is_line_terminator c).
  - destruct (rest s) as [| c l]; [reflexivity |]. now destruct (in_class c cs).
  - now destruct (Nat.eqb (pos s) 0).
  - reflexivity.
  - rewrite (rmatch_ext r1 s _ (fun _ => false)); [apply IH1 | intros s1 _; apply IH2].
  - now rewrite IH1, IH2.
  - generalize (length (rest s)). intros fuel. revert s.
    induction fuel as [| fuel IHf]; intros s; simpl; [reflexivity |].
    rewrite (rmatch_ext r s _ (fun _ => false)); [now rewrite IH |].
    intros s1 _. destruct (Nat.ltb (pos s) (pos s1)); [apply IHf | reflexivity].
  - now rewrite IH.
  - apply IH.
  - destruct (captured n (caps s)) as [w |]; [| reflexivity].
    now destruct (starts_with w (rest s)).
Qed.

(** The iterations of a star never run short of fuel: from the number
    of remaining characters on, more fuel changes nothing. *)
Lemma star_fuel_enough (r : regex) (k : mstate -> bool) :
  forall (fuel : nat) (s0 : mstate),
    (length (rest s0) <= fuel)%nat ->
    star_iter (rmatch r) k fuel s0 = star_iter (rmatch r) k (length (rest s0)) s0.
Proof.
  induction fuel as [fuel IH] using lt_wf_ind. intros s0 Hle.
  destruct (Nat.eq_dec (length (rest s0)) fuel) as [-> | Hne]; [reflexivity |].
  destruct fuel as [| fuel]; [lia |].
  destruct (length (rest s0)) as [| n] eqn:Hn; simpl.
  - rewrite (rmatch_ext r s0 _ (fun _ => false)); [now rewrite rmatch_fails |].
    intros s1 [H1 H2]. destruct (Nat.ltb_spec (pos s0) (pos s1)); [lia | reflexivity].
  - f_equal. apply rmatch_ext. intros s1 [H1 H2].
    destruct (Nat.ltb_spec (pos s0) (pos s1)); [| reflexivity].
    rewrite (IH fuel) by lia. rewrite (IH n) by lia. reflexivity.
Qed.

(** ** Arrays *)

Lemma get_Some (a : list Z) (i c : Z) :
  get a i = Some c -> 0 <= i /\ (Z.to_nat i < length a)%nat /\ a !! Z.to_nat i = Some c.
Proof.
  unfold get. destruct (Z.leb_spec 0 i) as [Hi | Hi]; [| discriminate].
  intros H. split; [exact Hi |]. split; [| exact H].
  apply lookup_lt_is_Some. eauto.
Qed.

Lemma get_outside (a : list Z) (i : Z) :
  i < 0 \/ Z.of_nat (length a) <= i -> get a i = None.
Proof.
  unfold get. intros [H | H].
  - destruct (Z.leb_spec 0 i); [lia | reflexivity].
  - destruct (Z.leb_spec 0 i); [| reflexivity].
    apply lookup_ge_None. lia.
Qed.

Lemma get_of_nat (a : list Z) (i : nat) : get a (Z.of_nat i) = a !! i.
Proof.
  unfold get. destruct (Z.leb_spec 0 (Z.of_nat i)); [| lia].
  now rewrite Nat2Z.id.
Qed.

Lemma get_set_same (a : list Z) (i v c : Z) :
  get a i = Some c -> get (set a i v) i = Some v.
Proof.
  intros H. destruct (get_Some _ _ _ H) as (Hi & Hlt & _).
  unfold get, set. destruct (Z.leb_spec 0 i); [| lia].
  now apply list_lookup_insert_eq.
Qed.

Lemma get_set_other (a : list Z) (i j v : Z) :
  0 <= i -> i <> j -> get (set a i v) j = get a j.
Proof.
  intros Hi Hne. unfold get, set.
  destruct (Z.leb_spec 0 j); [| reflexivity].
  apply list_lookup_insert_ne. lia.
Qed.

Lemma set_set_back (a : list Z) (i v : Z) :
  get a i = Some 0 -> set (set a i v) i 0 = a.
Proof.
  intros H. destruct (get_Some _ _ _ H) as (_ & _ & Hl).
  unfold set. rewrite list_insert_insert_eq. now apply list_insert_id.
Qed.

Lemma length_set (a : list Z) (i v : Z) : length (set a i v) = length a.
Proof. apply length_insert. Qed.

Lemma occupied_insert_fill (b : list Z) (i : nat) (v : Z) :
  b !! i = Some 0 -> v <> 0 -> occupied (<[i := v]> b) = S (occupied b).
Proof.
  unfold occupied. revert i. induction b as [| c b IH]; intros [| i] H Hv; simpl in *;
    try discriminate.
  - injection H as ->. simpl. destruct (Z.eqb_spec v 0); [contradiction | reflexivity].
  - destruct (negb (c =? 0)); simpl; now rewrite (IH i).
Qed.

Lemma occupied_insert_clear (b : list Z) (i : nat) (c : Z) :
  b !! i = Some c -> c <> 0 -> S (occupied (<[i := 0]> b)) = occupied b.
Proof.
  unfold occupied. revert i. induction b as [| d b IH]; intros [| i] H Hc; simpl in *;
    try discriminate.
  - injection H as ->. destruct (Z.eqb_spec c 0); [contradiction | reflexivity].
  - destruct (negb (d =? 0)); simpl; now rewrite <- (IH i).
Qed.

Lemma occupied_le_length (b : list Z) : (occupied b <= length b)%nat.
Proof. unfold occupied. apply List.filter_length_le. Qed.

(** ** [play] and [takeBack], case by case *)

Lemma not_zero_false (x : option Z) : not_zero x = false <-> x = Some 0.
Proof.
  destruct x as [c |]; simpl; [| split; discriminate].
  destruct (Z.eqb_spec c 0) as [-> | Hc]; simpl; split; try reflexivity; try discriminate.
  intros [= H]. contradiction.
Qed.

Lemma play_accepts (move : Z) (g : TicTacToe) :
  get (board g) move = Some 0 -> isWin g = false -> play move g = (true, played move g).
Proof.
  intros Hc Hw. unfold play. rewrite Hc, Hw. reflexivity.
Qed.

Lemma play_rejects (move : Z) (g : TicTacToe) :
  get (board g) move <> Some 0 \/ isWin g = true -> play move g = (false, g).
Proof.
  intros H. unfold play.
  destruct (not_zero (get (board g) move)) eqn:Hn; [reflexivity |].
  apply not_zero_false in Hn. destruct H as [H | ->]; [contradiction | reflexivity].
Qed.

Lemma play_cases (move : Z) (g : TicTacToe) :
  (get (board g) move = Some 0 /\ isWin g = false /\ play move g = (true, played move g))
  \/ ((get (board g) move <> Some 0 \/ isWin g = true) /\ play move g = (false, g)).
Proof.
  destruct (isWin g) eqn:Hw.
  - right. split; [now right |]. apply play_rejects. now right.
  - destruct (decide (get (board g) move = Some 0)) as [Hc | Hc].
    + left. auto using play_accepts.
    + right. split; [now left |]. apply play_rejects. now left.
Qed.

Lemma takeBack_empty (g : TicTacToe) : moves g = [] -> takeBack g = (false, g).
Proof. intros H. unfold takeBack. now rewrite H. Qed.

Lemma takeBack_pops (g : TicTacToe) (ms : list Z) (move : Z) :
  moves g = ms ++ [move] ->
  takeBack g = (true, Game (set (board g) move 0) ms false false).
Proof.
  intros H. unfold takeBack. rewrite H, last_snoc, removelast_last. reflexivity.
Qed.

Lemma takeBack_cases (g : TicTacToe) :
  (moves g = [] /\ takeBack g = (false, g))
  \/ (exists ms move, moves g = ms ++ [move]
        /\ takeBack g = (true, Game (set (board g) move 0) ms false false)).
Proof.
  destruct (moves g) as [| m0 ms0] eqn:Hm using rev_ind.
  - left. auto using takeBack_empty.
  - right. exists ms0, m0. auto using takeBack_pops.
Qed.

(** [takeBack] undoes a successful [play] made in a state that is
    neither won nor drawn, whatever the state. *)
Lemma takeBack_played (move : Z) (g : TicTacToe) :
  get (board g) move = Some 0 -> isWin g = false -> isDraw g = false ->
  takeBack (played move g) = (true, g).
Proof.
  intros Hc Hw Hd.
  rewrite (takeBack_pops (played move g) (moves g) move) by reflexivity.
  simpl. rewrite set_set_back by exact Hc.
  destruct g; simpl in *; now subst.
Qed.

(** ** The invariant of the reachable states *)

Lemma consistent_new : consistent new_game.
Proof.
  split; simpl; try reflexivity.
  - constructor.
  - intros k m H. discriminate.
  - intros i Hi _. exact (proj2 (lookup_replicate 9 0 0 i) (conj eq_refl Hi)).
Qed.

Lemma mark_not_zero (k : nat) : 1 + Z.of_nat k mod 2 <> 0.
Proof. pose proof (Z.mod_pos_bound (Z.of_nat k) 2). lia. Qed.

Lemma consistent_fresh_cell (g : TicTacToe) (move : Z) :
  consistent g -> get (board g) move = Some 0 -> move ∉ moves g.
Proof.
  intros Hg Hc Hin. apply list_elem_of_lookup in Hin as [k Hk].
  apply (c_mark g Hg) in Hk. rewrite Hc in Hk. injection Hk as Hk.
  now apply (mark_not_zero k).
Qed.

Lemma consistent_played (g : TicTacToe) (move : Z) :
  consistent g -> get (board g) move = Some 0 -> consistent (played move g).
Proof.
  intros Hg Hc.
  pose proof (consistent_fresh_cell g move Hg Hc) as Hfresh.
  destruct (get_Some _ _ _ Hc) as (H0 & Hlt & Hl).
  split; simpl.
  - rewrite length_set. apply (c_cells g Hg).
  - apply NoDup_app. split; [apply (c_nodup g Hg) |]. split.
    + intros x Hx Hx'. apply list_elem_of_singleton in Hx'. now subst.
    + apply NoDup_singleton.
  - intros k m Hk. apply lookup_app_Some in Hk as [Hk | [Hlen Hk]].
    + rewrite get_set_other.
      * now apply (c_mark g Hg).
      * exact H0.
      * intros ->. apply Hfresh. apply list_elem_of_lookup. eauto.
    + apply list_lookup_singleton_Some in Hk as [Hk ->].
      replace k with (length (moves g)) by lia.
      unfold turn. eapply get_set_same. exact Hc.
  - intros i Hi Hn. unfold set. rewrite list_lookup_insert_ne.
    + apply (c_empty g Hg); [exact Hi |]. intros Hin. apply Hn.
      apply elem_of_app. now left.
    + intros Heq. apply Hn. apply elem_of_app. right.
      apply list_elem_of_singleton. lia.
  - unfold set. rewrite occupied_insert_fill.
    + rewrite length_app, (c_count g Hg). simpl. lia.
    + exact Hl.
    + unfold turn. apply mark_not_zero.
  - rewrite length_set, (c_cells g Hg). reflexivity.
Qed.

Lemma consistent_moves_le (g : TicTacToe) : consistent g -> (length (moves g) <= 9)%nat.
Proof.
  intros Hg. rewrite <- (c_count g Hg), <- (c_cells g Hg). apply occupied_le_length.
Qed.

Lemma consistent_takeBack (g : TicTacToe) (ms : list Z) (move : Z) :
  consistent g -> moves g = ms ++ [move] ->
  consistent (Game (set (board g) move 0) ms false false).
Proof.
  intros Hg Hm.
  assert (Hmark : get (board g) move = Some (1 + Z.of_nat (length ms) mod 2)).
  { apply (c_mark g Hg). rewrite Hm. apply list_lookup_middle. reflexivity. }
  destruct (get_Some _ _ _ Hmark) as (H0 & Hlt & Hl).
  pose proof (c_nodup g Hg) as Hnd. rewrite Hm in Hnd.
  apply NoDup_app in Hnd as (Hnd & Hdisj & _).
  assert (Hfresh : move ∉ ms).
  { intros Hin. apply (Hdisj move Hin). apply list_elem_of_singleton. reflexivity. }
  split; simpl.
  - rewrite length_set. apply (c_cells g Hg).
  - exact Hnd.
  - intros k m Hk. rewrite get_set_other.
    + apply (c_mark g Hg). rewrite Hm. apply lookup_app_l_Some. exact Hk.
    + exact H0.
    + intros ->. apply Hfresh. apply list_elem_of_lookup. eauto.
  - intros i Hi Hn. unfold set.
    destruct (decide (Z.to_nat move = i)) as [<- | Hne].
    + now apply list_lookup_insert_eq.
    + rewrite list_lookup_insert_ne by exact Hne.
      apply (c_empty g Hg); [exact Hi |]. rewrite Hm. intros Hin.
      apply elem_of_app in Hin as [Hin | Hin]; [contradiction |].
      apply list_elem_of_singleton in Hin. lia.
  - pose proof (occupied_insert_clear (board g) (Z.to_nat move) _ Hl
                  (mark_not_zero (length ms))) as Hocc.
    unfold set. rewrite (c_count g Hg), Hm, length_app in Hocc. simpl in Hocc. lia.
  - pose proof (consistent_moves_le g Hg) as Hle. rewrite Hm, length_app in Hle.
    simpl in Hle. destruct (Nat.eqb_spec (length ms) 9); [lia | reflexivity].
Qed.

Lemma reachable_consistent (g : TicTacToe) : reachable g -> consistent g.
Proof.
  induction 1 as [| move g Hr IH | g Hr IH].
  - exact consistent_new.
  - destruct (play_cases move g) as [(Hc & _ & ->) | (_ & ->)]; simpl.
    + now apply consistent_played.
    + exact IH.
  - destruct (takeBack_cases g) as [(_ & ->) | (ms & move & Hm & ->)]; simpl.
    + exact IH.
    + now apply consistent_takeBack.
Qed.

(** ** The win test *)

Lemma all_boards_complete (b : list Z) :
  Forall is_cell b -> In b (all_boards (length b)).
Proof.
  induction 1 as [| c b Hc Hb IH]; simpl.
  - now left.
  - apply in_flat_map. exists b. split; [exact IH |].
    destruct Hc as [-> | [-> | ->]]; simpl; auto.
Qed.

Lemma agree_on_all_boards : forallb agree_on (all_boards 9) = true.
Proof. vm_compute. reflexivity. Qed.

(** On a board of nine cells the pattern of [play] matches the text of
    the board exactly when one of the eight triples is full. *)
Lemma win_pattern_has_line (b : list Z) :
  length b = 9%nat -> Forall is_cell b ->
  RegExp.test win_pattern (join b) = has_line b.
Proof.
  intros Hlen Hb. apply all_boards_complete in Hb. rewrite Hlen in Hb.
  pose proof agree_on_all_boards as Hall. rewrite forallb_forall in Hall.
  apply Hall in Hb. unfold agree_on in Hb. now apply eqb_prop.
Qed.

Lemma consistent_cells (g : TicTacToe) : consistent g -> Forall is_cell (board g).
Proof.
  intros Hg. apply Forall_lookup. intros i c Hi.
  assert (Hlt : (i < 9)%nat).
  { rewrite <- (c_cells g Hg). apply lookup_lt_is_Some. eauto. }
  destruct (decide (Z.of_nat i ∈ moves g)) as [Hin | Hout].
  - apply list_elem_of_lookup in Hin as [k Hk]. apply (c_mark g Hg) in Hk.
    rewrite get_of_nat, Hi in Hk. injection Hk as ->.
    pose proof (Z.mod_pos_bound (Z.of_nat k) 2). unfold is_cell. lia.
  - rewrite (c_empty g Hg i Hlt Hout) in Hi. injection Hi as <-. now left.
Qed.

Lemma has_line_spec (b : list Z) :
  has_line b = true <->
  exists i j k x, In (i, j, k) winning_triples /\ x <> 0
    /\ b !! i = Some x /\ b !! j = Some x /\ b !! k = Some x.
Proof.
  unfold has_line. rewrite existsb_exists. split.
  - intros ([[i j] k] & Hin & Hfull). exists i, j, k. unfold line_full in Hfull.
    destruct (b !! i) as [x |]; [| discriminate].
    destruct (b !! j) as [y |]; [| discriminate].
    destruct (b !! k) as [z |]; [| discriminate].
    apply andb_true_iff in Hfull as [Hfull Hyz].
    apply andb_true_iff in Hfull as [Hx Hxy].
    apply Z.eqb_eq in Hyz, Hxy. subst. exists z.
    destruct (Z.eqb_spec z 0); [discriminate | auto].
  - intros (i & j & k & x & Hin & Hx & Hi & Hj & Hk). exists (i, j, k).
    split; [exact Hin |]. unfold line_full. rewrite Hi, Hj, Hk, Z.eqb_refl.
    destruct (Z.eqb_spec x 0); [contradiction | reflexivity].
Qed.

(** ** Valid moves *)

Lemma validMoves_spec (g : TicTacToe) (m : Z) :
  In m (validMoves g) <-> get (board g) m = Some 0.
Proof.
  unfold validMoves. rewrite filter_In, <- list_elem_of_In, elem_of_lookup_imap. split.
  - intros [(i & c & Hm & Hi) Hne]. subst m.
    destruct (Z.eqb_spec c 0) as [Hc | Hc]; [| discriminate].
    subst c. now rewrite get_of_nat.
  - intros H. destruct (get_Some _ _ _ H) as (H0 & _ & Hl). split.
    + exists (Z.to_nat m), 0. split; [| exact Hl]. simpl. lia.
    + destruct (Z.eqb_spec m (-1)); [lia | reflexivity].
Qed.

Lemma free_cell_exists (b : list Z) :
  (occupied b < length b)%nat -> exists i : nat, b !! i = Some 0.
Proof.
  unfold occupied. induction b as [| c b IH]; simpl; [lia |].
  destruct (Z.eqb_spec c 0) as [-> | Hc]; simpl; intros H.
  - now exists O.
  - destruct IH as [i Hi]; [lia |]. now exists (S i).
Qed.

(** A reachable state that is neither won nor drawn has a valid move. *)
Lemma consistent_has_move (g : TicTacToe) :
  consistent g -> isWin g = false -> isDraw g = false -> validMoves g <> [].
Proof.
  intros Hg Hw Hd. pose proof (c_draw g Hg) as Hdraw. rewrite Hw, Hd in Hdraw.
  simpl in Hdraw. symmetry in Hdraw. apply Nat.eqb_neq in Hdraw.
  pose proof (consistent_moves_le g Hg) as Hle.
  destruct (free_cell_exists (board g)) as [i Hi].
  { rewrite (c_count g Hg), (c_cells g Hg). lia. }
  intros Hnil. rewrite <- get_of_nat in Hi. apply validMoves_spec in Hi.
  rewrite Hnil in Hi. exact Hi.
Qed.

(** ** Search values *)

Lemma neg_not_NegInf (x : num) : x <> PosInf -> Num.neg x <> NegInf.
Proof. now destruct x. Qed.

Lemma max_below_not_PosInf (a v b : num) :
  Num.geb (Num.max a v) b = false -> v <> PosInf.
Proof.
  intros H Hv. subst v. destruct a, b; simpl in H.
  all: discriminate.
Qed.

Lemma geb_not_gtb (v w : num) :
  Num.geb v w = true -> Num.gtb v w = false -> v = w.
Proof.
  unfold Num.gtb. destruct v, w; simpl; try discriminate; try reflexivity.
  intros H1 H2. apply negb_false_iff in H2. apply Z.leb_le in H1, H2. f_equal. lia.
Qed.

Lemma geb_Fin_is_Fin (v : num) (z : Z) :
  Num.geb v (Fin z) = true -> v <> PosInf -> exists z', v = Fin z'.
Proof. destruct v; simpl; try discriminate; eauto. contradiction. Qed.

(** ** The loop of [minimax] *)

Lemma well_formed_initial (allowed : list Z) : well_formed allowed (Result NegInf None).
Proof. split; [discriminate | reflexivity]. Qed.

Lemma well_formed_push (allowed l : list Z) (v : num) (move : Z) :
  v <> PosInf -> In move allowed -> (forall m, In m l -> In m allowed) ->
  well_formed allowed (Result v (Some (l ++ [move]))).
Proof.
  intros Hv Hmove Hl. split; [exact Hv |]. simpl. split.
  - destruct l; discriminate.
  - intros m Hm. apply in_app_or in Hm as [Hm | [<- | []]]; auto.
Qed.

Section Loop.

Variable recurse : num -> num -> TicTacToe -> outcome (result * TicTacToe).

Hypothesis recurse_returns :
  forall a b g, exists r, recurse a b g = Ret (r, g) /\ value r <> PosInf.

(** In a state that is neither won nor drawn, the loop over empty cells
    returns, with the state as it found it. *)
Lemma for_moves_returns (g : TicTacToe) (allowed : list Z) :
  isWin g = false -> isDraw g = false ->
  forall (ms : list Z) (alpha beta : num) (best : result),
    (forall m, In m ms -> get (board g) m = Some 0) ->
    (forall m, In m ms -> In m allowed) ->
    well_formed allowed best ->
    exists r, for_moves recurse ms alpha beta best g = Ret (r, g)
      /\ well_formed allowed r
      /\ ((exists z, value best = Fin z) -> exists z, value r = Fin z).
Proof.
  intros Hw Hd. induction ms as [| move ms IH]; intros alpha beta best Hfree Hall Hbest.
  - exists best. simpl. auto.
  - assert (Hmove : get (board g) move = Some 0) by (apply Hfree; now left).
    assert (Hfree' : forall m, In m ms -> get (board g) m = Some 0)
      by (intros m Hm; apply Hfree; now right).
    assert (Hall' : forall m, In m ms -> In m allowed)
      by (intros m Hm; apply Hall; now right).
    assert (Hin : In move allowed) by (apply Hall; now left).
    simpl. rewrite (play_accepts move g Hmove Hw). simpl.
    destruct (recurse_returns (Num.neg beta) (Num.neg alpha) (played move g))
      as (child & -> & Hchild).
    rewrite (takeBack_played move g Hmove Hw Hd). simpl.
    set (v := Num.neg (value child)).
    destruct (Num.geb (Num.max alpha v) beta) eqn:Hcut.
    { exists best. auto. }
    assert (Hv : v <> PosInf) by (eapply max_below_not_PosInf; exact Hcut).
    assert (Hv' : v <> NegInf) by (apply neg_not_NegInf; exact Hchild).
    destruct (Num.geb v (value best)) eqn:Hge; [| now apply IH].
    destruct (Num.gtb v (value best)) eqn:Hgt; simpl.
    + destruct (IH (Num.max alpha v) beta (Result v (Some ([] ++ [move]))) Hfree' Hall')
        as (r & Hr & Hwf & Hfin).
      { apply well_formed_push; [exact Hv | exact Hin | intros m []]. }
      exists r. split; [exact Hr |]. split; [exact Hwf |].
      intros [z Hz]. apply Hfin. simpl. rewrite Hz in Hge.
      now apply (geb_Fin_is_Fin v z).
    + pose proof (geb_not_gtb v (value best) Hge Hgt) as Heq.
      destruct Hbest as [Hb1 Hb2].
      destruct (best_moves best) as [l |] eqn:Hl; [| congruence].
      destruct Hb2 as [_ Hb2].
      destruct (IH (Num.max alpha v) beta (Result (value best) (Some (l ++ [move])))
                  Hfree' Hall') as (r & Hr & Hwf & Hfin).
      { now apply well_formed_push. }
      exists r. auto.
Qed.

End Loop.

(** [minimax] returns on every state, whatever the window: the push on
    [best.moves] never finds the list missing.  It leaves the state as it
    found it. *)
Lemma minimax_returns (depth : nat) :
  forall (alpha beta : num) (g : TicTacToe),
    exists r, minimax depth alpha beta g = Ret (r, g) /\ value r <> PosInf.
Proof.
  assert (Hleaf : forall g, value (leaf g) <> PosInf).
  { intros g. unfold leaf. destruct (isWin g), (isDraw g); discriminate. }
  induction depth as [| depth IH]; intros alpha beta g; simpl.
  - exists (leaf g). auto.
  - destruct (isWin g) eqn:Hw; simpl.
    { exists (leaf g). auto. }
    destruct (isDraw g) eqn:Hd.
    { exists (leaf g). auto. }
    destruct (for_moves_returns (minimax depth) IH g (validMoves g) Hw Hd
                (validMoves g) alpha beta (Result NegInf None))
      as (r & Hr & [Hv _] & _).
    + intros m Hm. now apply validMoves_spec.
    + auto.
    + apply well_formed_initial.
    + exists r. auto.
Qed.

(** With the full window, in a reachable state: the value is an integer,
    and below the root of a search of positive depth in a state that is
    neither won nor drawn, the move list is there, is not empty and
    holds valid moves only. *)
Lemma minimax_full_window (depth : nat) :
  forall g : TicTacToe, consistent g ->
    exists r, minimax depth NegInf PosInf g = Ret (r, g)
      /\ (exists z, value r = Fin z)
      /\ (isWin g = false -> isDraw g = false -> depth <> O ->
          exists l, best_moves r = Some l /\ l <> []
            /\ forall m, In m l -> In m (validMoves g)).
Proof.
  assert (Hleaf : forall g, exists z, value (leaf g) = Fin z).
  { intros g. unfold leaf. destruct (isWin g), (isDraw g); simpl; eauto. }
  induction depth as [| depth IH]; intros g Hg; simpl.
  - exists (leaf g). split; [reflexivity |]. split; [apply Hleaf | intros; congruence].
  - destruct (isWin g) eqn:Hw; simpl.
    { exists (leaf g). split; [reflexivity |]. split; [apply Hleaf | intros; congruence]. }
    destruct (isDraw g) eqn:Hd.
    { exists (leaf g). split; [reflexivity |]. split; [apply Hleaf | intros; congruence]. }
    pose proof (consistent_has_move g Hg Hw Hd) as Hmoves.
    assert (Hfree : forall m, In m (validMoves g) -> get (board g) m = Some 0)
      by (intros m Hm; now apply validMoves_spec).
    destruct (validMoves g) as [| move ms] eqn:Hvalid; [contradiction |].
    assert (Hmove : get (board g) move = Some 0) by (apply Hfree; now left).
    simpl. rewrite (play_accepts move g Hmove Hw). simpl.
    destruct (IH (played move g) (consistent_played g move Hg Hmove))
      as (child & -> & [z Hz] & _).
    rewrite (takeBack_played move g Hmove Hw Hd), Hz. simpl.
    destruct (for_moves_returns (minimax depth) (minimax_returns depth) g (move :: ms)
                Hw Hd ms (Num.max NegInf (Fin (- z))) PosInf
                (Result (Fin (- z)) (Some [move])))
      as (r & Hr & [_ Hwf] & Hfin).
    + intros m Hm. apply Hfree. now right.
    + intros m Hm. now right.
    + apply (well_formed_push (move :: ms) [] (Fin (- z)) move);
        [discriminate | now left | intros m []].
    + exists r. split; [exact Hr |]. split; [apply Hfin; simpl; eauto |].
      intros _ _ _. destruct (best_moves r) as [l |].
      * exists l. destruct Hwf. auto.
      * destruct (Hfin (ex_intro _ (- z) eq_refl)) as [z' Hz']. congruence.
Qed.

(** ** Written cells are cells of the board *)

Lemma play_index_in_range (g : TicTacToe) (move : Z) :
  not_zero (get (board g) move) = false ->
  0 <= move < Z.of_nat (length (board g)).
Proof.
  intros H. apply not_zero_false in H.
  destruct (get_Some _ _ _ H) as (H0 & Hlt & _). lia.
Qed.

Lemma takeBack_index_in_range (g : TicTacToe) (move : Z) :
  reachable g -> last (moves g) = Some move ->
  0 <= move < Z.of_nat (length (board g)).
Proof.
  intros Hr Hlast. apply reachable_consistent in Hr.
  apply last_Some in Hlast as [ms Hm].
  assert (Hmark : get (board g) move = Some (1 + Z.of_nat (length ms) mod 2)).
  { apply (c_mark g Hr). rewrite Hm. apply list_lookup_middle. reflexivity. }
  destruct (get_Some _ _ _ Hmark) as (H0 & Hlt & _). lia.
Qed.

Lemma reachable_plays (ms : list Z) : reachable (plays ms).
Proof.
  unfold plays. generalize reach_new. generalize new_game.
  induction ms as [| m ms IH]; intros g Hg; simpl; [exact Hg |].
  apply IH. now apply reach_play.
Qed.

(** * The claims *)

(** C1 (the code departs from the claim).  The claim: with the full
    window, [minimax] returns the value and the set of best moves of the
    search without pruning.  The code does not.  After the moves 0, 1, 2,
    3, 4, 6 the first player wins at once by playing cell 8; the search
    without pruning of depth 2 returns the value 10 with the move 8, and
    [minimax] of depth 2 returns the value 0 with the move 5.  After the
    moves 0, 4, at depth 9, the search without pruning returns the value
    0 with all seven moves, and [minimax] the value 10 with the move 2.
    On the empty board, at depth 2, both return the value 0, the search
    without pruning with all nine moves and [minimax] with the move 0
    alone. *)
Theorem minimax_departs_from_unpruned :
  reachable (plays [0; 1; 2; 3; 4; 6])
  /\ minimax 2 NegInf PosInf (plays [0; 1; 2; 3; 4; 6])
     = Ret (Result (Fin 0) (Some [5]), plays [0; 1; 2; 3; 4; 6])
  /\ unpruned_minimax 2 (plays [0; 1; 2; 3; 4; 6]) = Result (Fin 10) (Some [8])
  /\ reachable (plays [0; 4])
  /\ minimax 9 NegInf PosInf (plays [0; 4])
     = Ret (Result (Fin 10) (Some [2]), plays [0; 4])
  /\ unpruned_minimax 9 (plays [0; 4]) = Result (Fin 0) (Some [1; 2; 3; 5; 6; 7; 8])
  /\ minimax 2 NegInf PosInf new_game = Ret (Result (Fin 0) (Some [0]), new_game)
  /\ unpruned_minimax 2 new_game = Result (Fin 0) (Some [0; 1; 2; 3; 4; 5; 6; 7; 8]).
Proof.
  split; [apply reachable_plays |].
  split; [vm_compute; reflexivity |].
  split; [vm_compute; reflexivity |].
  split; [apply reachable_plays |].
  split; [vm_compute; reflexivity |].
  split; [vm_compute; reflexivity |].
  split; vm_compute; reflexivity.
Qed.

(** C2, as amended.  Called on a state that is won or drawn or has no
    valid move, [goodMove] throws a [TypeError], for every depth: the
    search result has no move list, and reading its length throws.  It is
    the one operation that throws.  [minimax] returns on every state,
    with every depth and window, and leaves the state as it found it;
    [play], with every argument, and [takeBack] return a boolean on every
    state, and when it is false the state is as it was. *)
Theorem goodMove_throws_without_moves (random_index : nat -> nat) (depth : nat)
    (g : TicTacToe) :
  (validMoves g = [] \/ isWin g = true \/ isDraw g = true ->
   goodMove random_index depth g = TypeError)
  /\ (forall alpha beta, exists r, minimax depth alpha beta g = Ret (r, g))
  /\ (forall move, play move g = (false, g) \/ fst (play move g) = true)
  /\ (takeBack g = (false, g) \/ fst (takeBack g) = true).
Proof.
  split; [| split; [| split]].
  - intros H.
    assert (Hleaf : best_moves (leaf g) = None).
    { unfold leaf. destruct (isWin g), (isDraw g); reflexivity. }
    unfold goodMove. destruct depth as [| depth]; simpl.
    + now rewrite Hleaf.
    + destruct (isWin g) eqn:Hw; simpl; [now rewrite Hleaf |].
      destruct (isDraw g) eqn:Hd; [now rewrite Hleaf |].
      destruct H as [-> | [H | H]]; [reflexivity | discriminate | discriminate].
  - intros alpha beta. destruct (minimax_returns depth alpha beta g) as (r & Hr & _).
    eauto.
  - intros move. destruct (play_cases move g) as [(_ & _ & ->) | (_ & ->)]; auto.
  - destruct (takeBack_cases g) as [(_ & ->) | (ms & move & _ & ->)]; auto.
Qed.

Lemma goodMove_throws_without_moves_witness :
  goodMove (fun _ => O) 9 (plays [0; 1; 2; 4; 3; 5; 7; 6; 8]) = TypeError.
Proof.
  apply (proj1 (goodMove_throws_without_moves (fun _ => O) 9
                  (plays [0; 1; 2; 4; 3; 5; 7; 6; 8]))).
  left. vm_compute. reflexivity.
Defined.

(** C2, as stated, fails: on the drawn board reached by the moves 0, 1,
    2, 4, 3, 5, 7, 6, 8, which has no valid move, [goodMove] does not
    return [undefined]; it throws. *)
Lemma goodMove_on_drawn_board_throws :
  isDraw (plays [0; 1; 2; 4; 3; 5; 7; 6; 8]) = true
  /\ validMoves (plays [0; 1; 2; 4; 3; 5; 7; 6; 8]) = []
  /\ goodMove (fun _ => O) 9 (plays [0; 1; 2; 4; 3; 5; 7; 6; 8]) = TypeError
  /\ goodMove (fun _ => O) 9 (plays [0; 1; 2; 4; 3; 5; 7; 6; 8])
     <> Ret (None, plays [0; 1; 2; 4; 3; 5; 7; 6; 8]).
Proof.
  split; [vm_compute; reflexivity |].
  split; [vm_compute; reflexivity |].
  split; [vm_compute; reflexivity |].
  vm_compute. discriminate.
Qed.

(** C3.  In a reachable state that is neither won nor drawn, a [play]
    that succeeds followed by [takeBack] gives back the state before the
    [play]: board, move history, [isWin] and [isDraw]. *)
Theorem play_then_takeBack_restores (g g1 : TicTacToe) (move : Z) :
  reachable g -> isWin g = false -> isDraw g = false ->
  play move g = (true, g1) ->
  takeBack g1 = (true, g).
Proof.
  intros _ Hw Hd Hplay.
  destruct (play_cases move g) as [(Hc & _ & Heq) | (_ & Heq)];
    rewrite Heq in Hplay; [| discriminate].
  injection Hplay as <-. now apply takeBack_played.
Qed.

Lemma play_then_takeBack_restores_witness :
  takeBack (snd (play 4 new_game)) = (true, new_game).
Proof.
  apply (play_then_takeBack_restores new_game (snd (play 4 new_game)) 4);
    [apply reach_new | reflexivity | reflexivity | vm_compute; reflexivity].
Defined.

(** C4.  After a [play] that succeeds in a reachable state, [isWin] is
    true exactly when one of the eight triples has three equal non-empty
    cells, and the regular expression applied to the text of the board
    gives the same answer as the enumeration of the triples. *)
Theorem play_isWin_iff_triple (g g1 : TicTacToe) (move : Z) :
  reachable g -> play move g = (true, g1) ->
  (isWin g1 = true <->
   exists i j k x, In (i, j, k) winning_triples /\ x <> 0
     /\ board g1 !! i = Some x /\ board g1 !! j = Some x /\ board g1 !! k = Some x)
  /\ RegExp.test win_pattern (join (board g1)) = has_line (board g1).
Proof.
  intros Hr Hplay. apply reachable_consistent in Hr.
  destruct (play_cases move g) as [(Hc & _ & Heq) | (_ & Heq)];
    rewrite Heq in Hplay; [| discriminate].
  injection Hplay as <-.
  pose proof (consistent_played g move Hr Hc) as Hg1.
  assert (Htest : RegExp.test win_pattern (join (board (played move g)))
                  = has_line (board (played move g))).
  { apply win_pattern_has_line; [apply (c_cells _ Hg1) | now apply consistent_cells]. }
  split; [| exact Htest].
  rewrite <- has_line_spec, <- Htest. reflexivity.
Qed.

Lemma play_isWin_iff_triple_witness :
  (isWin (snd (play 4 new_game)) = true <->
   exists i j k x, In (i, j, k) winning_triples /\ x <> 0
     /\ board (snd (play 4 new_game)) !! i = Some x
     /\ board (snd (play 4 new_game)) !! j = Some x
     /\ board (snd (play 4 new_game)) !! k = Some x)
  /\ RegExp.test win_pattern (join (board (snd (play 4 new_game))))
     = has_line (board (snd (play 4 new_game))).
Proof.
  apply (play_isWin_iff_triple new_game (snd (play 4 new_game)) 4);
    [apply reach_new | vm_compute; reflexivity].
Defined.

(** C5.  In a reachable state, for a cell index from 0 to 8, [play]
    fails exactly when the cell is not empty or the game is won, and a
    failed [play] leaves the state as it was. *)
Theorem play_fails_iff (g : TicTacToe) (move : Z) :
  reachable g -> 0 <= move <= 8 ->
  (fst (play move g) = false <->
   (exists c, get (board g) move = Some c /\ c <> 0) \/ isWin g = true)
  /\ (fst (play move g) = false -> snd (play move g) = g).
Proof.
  intros Hr Hm. apply reachable_consistent in Hr.
  assert (Hcell : exists c, get (board g) move = Some c).
  { unfold get. destruct (Z.leb_spec 0 move); [| lia].
    apply lookup_lt_is_Some. rewrite (c_cells g Hr). lia. }
  destruct Hcell as [c Hc].
  destruct (play_cases move g) as [(H0 & Hw & ->) | (Hrej & ->)]; simpl.
  - split; [| discriminate]. split; [discriminate |].
    intros [(c' & Hc' & Hne) | Hw']; congruence.
  - split; [| reflexivity]. split; [| reflexivity]. intros _.
    destruct Hrej as [Hne | Hw]; [left | now right].
    exists c. split; [exact Hc |]. intros ->. contradiction.
Qed.

Lemma play_fails_iff_witness :
  (fst (play 4 (snd (play 4 new_game))) = false <->
   (exists c, get (board (snd (play 4 new_game))) 4 = Some c /\ c <> 0)
   \/ isWin (snd (play 4 new_game)) = true)
  /\ (fst (play 4 (snd (play 4 new_game))) = false ->
      snd (play 4 (snd (play 4 new_game))) = snd (play 4 new_game)).
Proof.
  apply (play_fails_iff (snd (play 4 new_game)) 4);
    [apply reach_play, reach_new | lia].
Defined.

(** C6.  In a reachable state that is neither won nor drawn and has a
    valid move, for every positive depth, [goodMove] returns a cell index
    that is one of the valid moves of the state.  [random_index n], the
    value of [Math.floor(Math.random() * n)], is an index below [n]. *)
Theorem goodMove_is_valid (random_index : nat -> nat) (depth : nat) (g : TicTacToe) :
  reachable g -> isWin g = false -> isDraw g = false -> validMoves g <> [] ->
  (0 < depth)%nat ->
  (forall n, (0 < n)%nat -> (random_index n < n)%nat) ->
  exists m, goodMove random_index depth g = Ret (Some m, g) /\ In m (validMoves g).
Proof.
  intros Hr Hw Hd _ Hdepth Hrandom. apply reachable_consistent in Hr.
  destruct (minimax_full_window depth g Hr) as (r & Hmm & _ & Hl).
  destruct Hl as (l & Hl & Hne & Hvalid); [exact Hw | exact Hd | lia |].
  unfold goodMove. rewrite Hmm, Hl.
  assert (Hlt : (random_index (length l) < length l)%nat).
  { apply Hrandom. destruct l; [contradiction | simpl; lia]. }
  apply lookup_lt_is_Some in Hlt as [m Hm].
  exists m. rewrite Hm. split; [reflexivity |].
  apply Hvalid. apply list_elem_of_In. apply list_elem_of_lookup. eauto.
Qed.

Lemma goodMove_is_valid_witness :
  exists m, goodMove (fun _ => O) 1 new_game = Ret (Some m, new_game)
    /\ In m (validMoves new_game).
Proof.
  apply (goodMove_is_valid (fun _ => O) 1 new_game);
    [apply reach_new | reflexivity | reflexivity | discriminate | lia
    | intros n Hn; exact Hn].
Defined.

(** C7.  In a reachable state [isWin] and [isDraw] are not both true, and
    [isDraw] is true exactly when [isWin] is false and the move history
    has nine entries. *)
Theorem win_draw_exclusive (g : TicTacToe) :
  reachable g ->
  ~ (isWin g = true /\ isDraw g = true)
  /\ (isDraw g = true <-> isWin g = false /\ length (moves g) = 9%nat).
Proof.
  intros Hr. apply reachable_consistent in Hr. pose proof (c_draw g Hr) as Hd.
  destruct (isWin g), (isDraw g); simpl in Hd;
    try discriminate; (split; [intros [? ?]; discriminate |]).
  - split; [discriminate | intros [? _]; discriminate].
  - symmetry in Hd. apply Nat.eqb_eq in Hd. split; [auto | reflexivity].
  - symmetry in Hd. apply Nat.eqb_neq in Hd.
    split; [discriminate | intros [_ ?]; contradiction].
Qed.

Lemma win_draw_exclusive_witness :
  ~ (isWin (snd (play 4 new_game)) = true /\ isDraw (snd (play 4 new_game)) = true)
  /\ (isDraw (snd (play 4 new_game)) = true <->
      isWin (snd (play 4 new_game)) = false
      /\ length (moves (snd (play 4 new_game))) = 9%nat).
Proof.
  apply (win_draw_exclusive (snd (play 4 new_game))).
  apply reach_play, reach_new.
Defined.

(** C8.  In a reachable state the number of non-empty cells is the
    length of the move history, the history has no duplicates, the
    non-empty cells are exactly the cells the history lists, and the cell
    of history entry [k] holds the mark [1 + k mod 2]. *)
Theorem board_matches_history (g : TicTacToe) :
  reachable g ->
  occupied (board g) = length (moves g)
  /\ NoDup (moves g)
  /\ (forall i : Z, (exists c, get (board g) i = Some c /\ c <> 0) <-> i ∈ moves g)
  /\ (forall (k : nat) (m : Z),
        moves g !! k = Some m -> get (board g) m = Some (1 + Z.of_nat k mod 2)).
Proof.
  intros Hr. apply reachable_consistent in Hr.
  split; [apply (c_count g Hr) |]. split; [apply (c_nodup g Hr) |].
  split; [| apply (c_mark g Hr)].
  intros i. split.
  - intros (c & Hc & Hne). destruct (get_Some _ _ _ Hc) as (H0 & Hlt & Hl).
    destruct (decide (i ∈ moves g)) as [Hin | Hout]; [exact Hin | exfalso].
    rewrite (c_cells g Hr) in Hlt.
    rewrite (c_empty g Hr (Z.to_nat i) Hlt) in Hl.
    + injection Hl as <-. contradiction.
    + now rewrite Z2Nat.id.
  - intros Hin. apply list_elem_of_lookup in Hin as [k Hk].
    exists (1 + Z.of_nat k mod 2). split; [now apply (c_mark g Hr) |].
    apply mark_not_zero.
Qed.

Lemma board_matches_history_witness :
  occupied (board (snd (play 4 new_game))) = length (moves (snd (play 4 new_game)))
  /\ NoDup (moves (snd (play 4 new_game)))
  /\ (forall i : Z,
        (exists c, get (board (snd (play 4 new_game))) i = Some c /\ c <> 0)
        <-> i ∈ moves (snd (play 4 new_game)))
  /\ (forall (k : nat) (m : Z),
        moves (snd (play 4 new_game)) !! k = Some m ->
        get (board (snd (play 4 new_game))) m = Some (1 + Z.of_nat k mod 2)).
Proof.
  apply (board_matches_history (snd (play 4 new_game))).
  apply reach_play, reach_new.
Defined.

(** C9.  In a reachable state [takeBack] fails exactly when the move
    history is empty, and then leaves the state as it was; when it
    succeeds it removes the last entry of the history, empties the cell of
    that entry and no other, and sets [isWin] and [isDraw] to false. *)
Theorem takeBack_spec (g : TicTacToe) :
  reachable g ->
  (fst (takeBack g) = false <-> moves g = [])
  /\ (fst (takeBack g) = false -> snd (takeBack g) = g)
  /\ (fst (takeBack g) = true ->
      exists ms move,
        moves g = ms ++ [move]
        /\ moves (snd (takeBack g)) = ms
        /\ get (board (snd (takeBack g))) move = Some 0
        /\ (forall j, j <> move -> get (board (snd (takeBack g))) j = get (board g) j)
        /\ length (board (snd (takeBack g))) = length (board g)
        /\ isWin (snd (takeBack g)) = false
        /\ isDraw (snd (takeBack g)) = false).
Proof.
  intros Hr. apply reachable_consistent in Hr.
  destruct (takeBack_cases g) as [(Hm & ->) | (ms & move & Hm & ->)]; simpl.
  - split; [tauto |]. split; [reflexivity | discriminate].
  - split.
    { split; [discriminate |]. rewrite Hm. intros H. now destruct ms. }
    split; [discriminate |]. intros _. exists ms, move.
    assert (Hmark : get (board g) move = Some (1 + Z.of_nat (length ms) mod 2)).
    { apply (c_mark g Hr). rewrite Hm. apply list_lookup_middle. reflexivity. }
    destruct (get_Some _ _ _ Hmark) as (H0 & _ & _).
    split; [exact Hm |]. split; [reflexivity |].
    split; [eapply get_set_same; exact Hmark |].
    split; [intros j Hj; apply get_set_other; [exact H0 | congruence] |].
    split; [apply length_set |]. auto.
Qed.

Lemma takeBack_spec_witness :
  (fst (takeBack (snd (play 4 new_game))) = false <-> moves (snd (play 4 new_game)) = [])
  /\ (fst (takeBack (snd (play 4 new_game))) = false ->
      snd (takeBack (snd (play 4 new_game))) = snd (play 4 new_game))
  /\ (fst (takeBack (snd (play 4 new_game))) = true ->
      exists ms move,
        moves (snd (play 4 new_game)) = ms ++ [move]
        /\ moves (snd (takeBack (snd (play 4 new_game)))) = ms
        /\ get (board (snd (takeBack (snd (play 4 new_game))))) move = Some 0
        /\ (forall j, j <> move ->
              get (board (snd (takeBack (snd (play 4 new_game))))) j
              = get (board (snd (play 4 new_game))) j)
        /\ length (board (snd (takeBack (snd (play 4 new_game)))))
           = length (board (snd (play 4 new_game)))
        /\ isWin (snd (takeBack (snd (play 4 new_game)))) = false
        /\ isDraw (snd (takeBack (snd (play 4 new_game)))) = false).
Proof.
  apply (takeBack_spec (snd (play 4 new_game))).
  apply reach_play, reach_new.
Defined.

(** C10.  In a reachable state [play] with an index below 0 or above 8
    fails and leaves the state as it was. *)
Theorem play_outside_board (g : TicTacToe) (move : Z) :
  reachable g -> move < 0 \/ 8 < move ->
  play move g = (false, g).
Proof.
  intros Hr Hm. apply reachable_consistent in Hr.
  apply play_rejects. left. rewrite get_outside; [discriminate |].
  rewrite (c_cells g Hr). lia.
Qed.

Lemma play_outside_board_witness : play 9 new_game = (false, new_game).
Proof.
  apply (play_outside_board new_game 9); [apply reach_new | lia].
Defined.

(** * Further properties of the game state *)

(** ** Histories *)

Lemma plays_snoc (ms : list Z) (move : Z) :
  plays (ms ++ [move]) = snd (play move (plays ms)).
Proof. unfold plays. now rewrite fold_left_app. Qed.

Lemma consistent_plays (ms : list Z) : consistent (plays ms).
Proof. apply reachable_consistent, reachable_plays. Qed.

Lemma legal_moves (ms : list Z) : legal ms -> moves (plays ms) = ms.
Proof.
  induction 1 as [| ms move Hl IH Hplay]; [reflexivity |].
  rewrite plays_snoc.
  destruct (play_cases move (plays ms)) as [(_ & _ & Heq) | (_ & Heq)];
    rewrite Heq in Hplay |- *; [| discriminate].
  simpl. now rewrite IH.
Qed.

(** What the last move of a legal history did. *)
Lemma legal_last (ms : list Z) (move : Z) :
  legal (ms ++ [move]) ->
  legal ms
  /\ get (board (plays ms)) move = Some 0
  /\ isWin (plays ms) = false
  /\ isDraw (plays ms) = false
  /\ plays (ms ++ [move]) = played move (plays ms).
Proof.
  intros Hl. inversion Hl as [Hnil | ms0 move0 Hl0 Hplay Heq].
  { now destruct ms. }
  apply app_inj_tail in Heq as [-> ->].
  destruct (play_cases move (plays ms)) as [(Hc & Hw & Hp) | (_ & Hp)];
    rewrite Hp in Hplay; [| discriminate].
  split; [exact Hl0 |]. split; [exact Hc |]. split; [exact Hw |].
  split; [| now rewrite plays_snoc, Hp].
  pose proof (consistent_plays ms) as Hg.
  pose proof (consistent_moves_le _ (consistent_played _ move Hg Hc)) as Hle.
  simpl in Hle. rewrite length_app in Hle. simpl in Hle.
  rewrite (c_draw _ Hg), Hw. simpl.
  destruct (Nat.eqb_spec (length (moves (plays ms))) 9); [lia | reflexivity].
Qed.

Lemma legal_takeBack (ms : list Z) (move : Z) :
  legal (ms ++ [move]) -> takeBack (plays (ms ++ [move])) = (true, plays ms).
Proof.
  intros Hl. destruct (legal_last ms move Hl) as (_ & Hc & Hw & Hd & ->).
  now apply takeBack_played.
Qed.

(** Every reachable state is the replay of a legal history. *)
Lemma reachable_legal (g : TicTacToe) :
  reachable g -> exists ms, legal ms /\ plays ms = g.
Proof.
  induction 1 as [| move g Hr (ms & Hl & <-) | g Hr (ms & Hl & <-)].
  - exists []. split; [constructor | reflexivity].
  - destruct (play_cases move (plays ms)) as [(_ & _ & Hp) | (_ & Hp)].
    + exists (ms ++ [move]). split; [| apply plays_snoc].
      constructor; [exact Hl | now rewrite Hp].
    + exists ms. now rewrite Hp.
  - destruct ms as [| move ms _] using rev_ind.
    + exists []. split; [constructor | reflexivity].
    + exists ms. rewrite (legal_takeBack ms move Hl). split; [| reflexivity].
      now destruct (legal_last ms move Hl).
Qed.

(** X1.  A reachable state is determined by its move history: calling
    [play] with the entries of the history, in order, on a fresh game
    gives the state again, flags included. *)
Theorem replay_history (g : TicTacToe) :
  reachable g -> plays (moves g) = g.
Proof.
  intros Hr. destruct (reachable_legal g Hr) as (ms & Hl & <-).
  now rewrite (legal_moves ms Hl).
Qed.

Lemma replay_history_witness :
  plays (moves (snd (takeBack (plays [4; 0; 8])))) = snd (takeBack (plays [4; 0; 8])).
Proof.
  apply (replay_history (snd (takeBack (plays [4; 0; 8])))).
  apply reach_takeBack, reachable_plays.
Defined.

(** ** The flags and the board *)

Lemma has_line_new : has_line (board new_game) = false.
Proof. reflexivity. Qed.

Lemma legal_isWin (ms : list Z) :
  legal ms -> isWin (plays ms) = has_line (board (plays ms)).
Proof.
  destruct ms as [| move ms _] using rev_ind; intros Hl; [reflexivity |].
  destruct (legal_last ms move Hl) as (_ & Hc & _ & _ & Hp).
  pose proof (consistent_plays (ms ++ [move])) as Hg.
  rewrite Hp in Hg |- *. simpl.
  apply win_pattern_has_line; [apply (c_cells _ Hg) | apply (consistent_cells _ Hg)].
Qed.

(** X2.  In a reachable state the flag [isWin] says whether the board
    holds a full line: the flag that [takeBack] clears without looking
    at the board is never out of step with it. *)
Theorem isWin_reflects_board (g : TicTacToe) :
  reachable g ->
  isWin g = true <->
  exists i j k x, In (i, j, k) winning_triples /\ x <> 0
    /\ board g !! i = Some x /\ board g !! j = Some x /\ board g !! k = Some x.
Proof.
  intros Hr. destruct (reachable_legal g Hr) as (ms & Hl & <-).
  now rewrite <- has_line_spec, (legal_isWin ms Hl).
Qed.

Lemma isWin_reflects_board_witness :
  isWin (snd (takeBack (plays [0; 3; 1; 4; 2]))) = true <->
  exists i j k x, In (i, j, k) winning_triples /\ x <> 0
    /\ board (snd (takeBack (plays [0; 3; 1; 4; 2]))) !! i = Some x
    /\ board (snd (takeBack (plays [0; 3; 1; 4; 2]))) !! j = Some x
    /\ board (snd (takeBack (plays [0; 3; 1; 4; 2]))) !! k = Some x.
Proof.
  apply (isWin_reflects_board (snd (takeBack (plays [0; 3; 1; 4; 2])))).
  apply reach_takeBack, reachable_plays.
Defined.

Lemma turn_played (move : Z) (g : TicTacToe) : turn (played move g) = 3 - turn g.
Proof.
  unfold turn. simpl. rewrite length_app. simpl.
  rewrite Nat2Z.inj_add. simpl.
  pose proof (Z.mod_pos_bound (Z.of_nat (length (moves g))) 2).
  pose proof (Z.mod_pos_bound (Z.of_nat (length (moves g)) + 1) 2).
  pose proof (Z.div_mod (Z.of_nat (length (moves g))) 2).
  pose proof (Z.div_mod (Z.of_nat (length (moves g)) + 1) 2).
  lia.
Qed.

Lemma legal_full_line (ms : list Z) (i j k : nat) (x : Z) :
  legal ms -> In (i, j, k) winning_triples -> x <> 0 ->
  board (plays ms) !! i = Some x -> board (plays ms) !! j = Some x ->
  board (plays ms) !! k = Some x ->
  x = 3 - turn (plays ms).
Proof.
  intros Hl Hin Hx Hi Hj Hk.
  destruct ms as [| move ms _] using rev_ind.
  { exfalso.
    assert (Hline : has_line (board (plays [])) = true)
      by (apply has_line_spec; exists i, j, k, x; auto).
    pose proof has_line_new as Hnew. change (board new_game) with (board (plays [])) in Hnew.
    congruence. }
  destruct (legal_last ms move Hl) as (Hl0 & Hc & Hw & _ & Hp).
  rewrite Hp in Hi, Hj, Hk |- *. rewrite turn_played. simpl in Hi, Hj, Hk.
  destruct (get_Some _ _ _ Hc) as (H0 & Hlt & _).
  unfold set in Hi, Hj, Hk.
  assert (Hat : forall n, n = Z.to_nat move ->
                  <[Z.to_nat move := turn (plays ms)]> (board (plays ms)) !! n = Some x ->
                  x = turn (plays ms)).
  { intros n -> Hn. rewrite list_lookup_insert_eq in Hn by exact Hlt. congruence. }
  destruct (decide (i = Z.to_nat move)) as [Hei | Hni]; [rewrite (Hat i Hei Hi); lia |].
  destruct (decide (j = Z.to_nat move)) as [Hej | Hnj]; [rewrite (Hat j Hej Hj); lia |].
  destruct (decide (k = Z.to_nat move)) as [Hek | Hnk]; [rewrite (Hat k Hek Hk); lia |].
  exfalso. rewrite list_lookup_insert_ne in Hi, Hj, Hk by congruence.
  assert (Hline : has_line (board (plays ms)) = true)
    by (apply has_line_spec; exists i, j, k, x; auto).
  rewrite <- (legal_isWin ms Hl0) in Hline. congruence.
Qed.

(** X3.  In a reachable state every full line holds the mark of the
    player who moved last, the opponent of [turn]: the two players never
    both have a line, and a won game was won by the last move. *)
Theorem full_line_of_last_mover (g : TicTacToe) (i j k : nat) (x : Z) :
  reachable g -> In (i, j, k) winning_triples -> x <> 0 ->
  board g !! i = Some x -> board g !! j = Some x -> board g !! k = Some x ->
  x = 3 - turn g.
Proof.
  intros Hr Hin Hx Hi Hj Hk.
  destruct (reachable_legal g Hr) as (ms & Hl & <-).
  now apply (legal_full_line ms i j k x).
Qed.

Lemma full_line_of_last_mover_witness :
  1 = 3 - turn (plays [0; 3; 1; 4; 2]).
Proof.
  apply (full_line_of_last_mover (plays [0; 3; 1; 4; 2]) 0 1 2 1);
    [apply reachable_plays | simpl; auto | lia | reflexivity | reflexivity | reflexivity].
Defined.

(** ** Undoing and redoing *)

Lemma legal_undo (ms : list Z) : legal ms -> undo (length ms) (plays ms) = new_game.
Proof.
  induction ms as [| move ms IH] using rev_ind; intros Hl; [reflexivity |].
  rewrite length_app, Nat.add_comm. simpl.
  rewrite (legal_takeBack ms move Hl). simpl. apply IH.
  now destruct (legal_last ms move Hl).
Qed.

(** X4.  From a reachable state, as many calls of [takeBack] as the
    history has entries lead back to the fresh game, where one more call
    fails. *)
Theorem undo_all_moves (g : TicTacToe) :
  reachable g ->
  undo (length (moves g)) g = new_game
  /\ takeBack (undo (length (moves g)) g) = (false, new_game).
Proof.
  intros Hr. destruct (reachable_legal g Hr) as (ms & Hl & <-).
  rewrite (legal_moves ms Hl), (legal_undo ms Hl). split; reflexivity.
Qed.

Lemma undo_all_moves_witness :
  undo (length (moves (plays [4; 0; 8]))) (plays [4; 0; 8]) = new_game
  /\ takeBack (undo (length (moves (plays [4; 0; 8]))) (plays [4; 0; 8]))
     = (false, new_game).
Proof.
  apply (undo_all_moves (plays [4; 0; 8])). apply reachable_plays.
Defined.

(** X5.  In a reachable state with a move to take back, [takeBack]
    followed by [play] of the move taken back succeeds and gives the
    state again, also when the state is won or drawn. *)
Theorem takeBack_then_play_restores (g : TicTacToe) (ms : list Z) (move : Z) :
  reachable g -> moves g = ms ++ [move] ->
  play move (snd (takeBack g)) = (true, g).
Proof.
  intros Hr Hm. destruct (reachable_legal g Hr) as (ms0 & Hl & <-).
  rewrite (legal_moves ms0 Hl) in Hm. subst ms0.
  rewrite (legal_takeBack ms move Hl). simpl.
  destruct (legal_last ms move Hl) as (_ & Hc & Hw & _ & ->).
  now apply play_accepts.
Qed.

Lemma takeBack_then_play_restores_witness :
  play 2 (snd (takeBack (plays [0; 3; 1; 4; 2]))) = (true, plays [0; 3; 1; 4; 2]).
Proof.
  apply (takeBack_then_play_restores (plays [0; 3; 1; 4; 2]) [0; 3; 1; 4] 2);
    [apply reachable_plays | vm_compute; reflexivity].
Defined.

(** ** Turns and marks *)

Lemma turn_values (g : TicTacToe) : turn g = 1 \/ turn g = 2.
Proof.
  unfold turn. pose proof (Z.mod_pos_bound (Z.of_nat (length (moves g))) 2). lia.
Qed.

(** X6.  [turn] is 1 or 2 in every state; a [play] that succeeds writes
    the mark of the player to move into the cell and passes the turn to
    the other player, and a [takeBack] that succeeds passes it back. *)
Theorem turn_alternates (g : TicTacToe) :
  (turn g = 1 \/ turn g = 2)
  /\ (forall move g1, play move g = (true, g1) ->
        get (board g1) move = Some (turn g) /\ turn g1 = 3 - turn g)
  /\ (forall g1, takeBack g = (true, g1) -> turn g1 = 3 - turn g).
Proof.
  split; [apply turn_values |]. split.
  - intros move g1 Hplay.
    destruct (play_cases move g) as [(Hc & _ & Heq) | (_ & Heq)];
      rewrite Heq in Hplay; [| discriminate].
    injection Hplay as <-. split; [| apply turn_played].
    simpl. eapply get_set_same. exact Hc.
  - intros g1 Hback.
    destruct (takeBack_cases g) as [(_ & Heq) | (ms & move & Hm & Heq)];
      rewrite Heq in Hback; [discriminate |].
    injection Hback as <-. unfold turn. simpl. rewrite Hm, length_app. simpl.
    rewrite Nat2Z.inj_add. simpl.
    pose proof (Z.mod_pos_bound (Z.of_nat (length ms)) 2).
    pose proof (Z.mod_pos_bound (Z.of_nat (length ms) + 1) 2).
    pose proof (Z.div_mod (Z.of_nat (length ms)) 2).
    pose proof (Z.div_mod (Z.of_nat (length ms) + 1) 2).
    lia.
Qed.

Lemma marks_insert_same (p : Z) (b : list Z) (i : nat) (c : Z) :
  b !! i = Some c -> c <> p -> marks p (<[i := p]> b) = S (marks p b).
Proof.
  unfold marks. revert i. induction b as [| d b IH]; intros [| i] H Hc; simpl in *;
    try discriminate.
  - injection H as ->. rewrite Z.eqb_refl.
    destruct (Z.eqb_spec c p); [contradiction | reflexivity].
  - destruct (d =? p); simpl; now rewrite (IH i).
Qed.

Lemma marks_insert_other (p v : Z) (b : list Z) (i : nat) (c : Z) :
  b !! i = Some c -> c <> p -> v <> p -> marks p (<[i := v]> b) = marks p b.
Proof.
  unfold marks. revert i. induction b as [| d b IH]; intros [| i] H Hc Hv; simpl in *;
    try discriminate.
  - injection H as ->.
    destruct (Z.eqb_spec c p); [contradiction |].
    destruct (Z.eqb_spec v p); [contradiction | reflexivity].
  - destruct (d =? p); simpl; now rewrite (IH i).
Qed.

Lemma legal_marks (ms : list Z) :
  legal ms ->
  Z.of_nat (marks 1 (board (plays ms))) = (Z.of_nat (length ms) + 1) / 2
  /\ Z.of_nat (marks 2 (board (plays ms))) = Z.of_nat (length ms) / 2.
Proof.
  induction ms as [| move ms IH] using rev_ind; intros Hl; [split; reflexivity |].
  destruct (legal_last ms move Hl) as (Hl0 & Hc & _ & _ & ->).
  destruct (IH Hl0) as [IH1 IH2].
  destruct (get_Some _ _ _ Hc) as (_ & _ & Hcell).
  rewrite length_app, Nat2Z.inj_add. simpl. unfold set, turn.
  rewrite (legal_moves ms Hl0).
  pose proof (Z.mod_pos_bound (Z.of_nat (length ms)) 2) as Hb.
  pose proof (Z.div_mod (Z.of_nat (length ms)) 2) as Hdm.
  pose proof (Z.div_mod (Z.of_nat (length ms) + 1) 2) as Hdm1.
  pose proof (Z.mod_pos_bound (Z.of_nat (length ms) + 1) 2) as Hb1.
  pose proof (Z.div_mod (Z.of_nat (length ms) + 1 + 1) 2) as Hdm2.
  pose proof (Z.mod_pos_bound (Z.of_nat (length ms) + 1 + 1) 2) as Hb2.
  assert (Hpar : Z.of_nat (length ms) mod 2 = 0 \/ Z.of_nat (length ms) mod 2 = 1) by lia.
  change (Z.of_nat 1) with 1.
  destruct Hpar as [Hpar | Hpar]; rewrite Hpar;
    [change (1 + 0) with 1 | change (1 + 1) with 2].
  - rewrite (marks_insert_same 1 _ _ 0 Hcell) by lia.
    rewrite (marks_insert_other 2 1 _ _ 0 Hcell) by lia.
    split; lia.
  - rewrite (marks_insert_other 1 2 _ _ 0 Hcell) by lia.
    rewrite (marks_insert_same 2 _ _ 0 Hcell) by lia.
    split; lia.
Qed.

(** X7.  In a reachable state with [n] moves in the history, player 1
    has [(n + 1) / 2] marks on the board and player 2 has [n / 2]: the
    players have moved alternately, player 1 first. *)
Theorem marks_balanced (g : TicTacToe) :
  reachable g ->
  Z.of_nat (marks 1 (board g)) = (Z.of_nat (length (moves g)) + 1) / 2
  /\ Z.of_nat (marks 2 (board g)) = Z.of_nat (length (moves g)) / 2.
Proof.
  intros Hr. destruct (reachable_legal g Hr) as (ms & Hl & <-).
  rewrite (legal_moves ms Hl). now apply legal_marks.
Qed.

Lemma marks_balanced_witness :
  Z.of_nat (marks 1 (board (plays [4; 0; 8])))
  = (Z.of_nat (length (moves (plays [4; 0; 8]))) + 1) / 2
  /\ Z.of_nat (marks 2 (board (plays [4; 0; 8])))
     = Z.of_nat (length (moves (plays [4; 0; 8]))) / 2.
Proof.
  apply (marks_balanced (plays [4; 0; 8])). apply reachable_plays.
Defined.

(** ** Valid moves *)

Lemma valid_from_cons (off : nat) (c : Z) (b : list Z) :
  valid_from off (c :: b)
  = if c =? 0 then Z.of_nat off :: valid_from (S off) b else valid_from (S off) b.
Proof.
  unfold valid_from. rewrite imap_cons.
  rewrite (imap_ext _ (fun index cell => if cell =? 0 then Z.of_nat (S off + index) else -1)).
  - simpl. rewrite Nat.add_0_r. destruct (c =? 0); simpl; [| reflexivity].
    destruct (Z.eqb_spec (Z.of_nat off) (-1)); [lia | reflexivity].
  - intros i x _. simpl. now rewrite Nat.add_succ_r.
Qed.

Lemma validMoves_valid_from (g : TicTacToe) : validMoves g = valid_from 0 (board g).
Proof. reflexivity. Qed.

Lemma valid_from_sorted (b : list Z) :
  forall off, StronglySorted Z.lt (valid_from off b)
              /\ Forall (fun m => Z.of_nat off <= m) (valid_from off b).
Proof.
  induction b as [| c b IH]; intros off.
  - split; constructor.
  - rewrite valid_from_cons. destruct (IH (S off)) as [Hs Hf].
    assert (Hf' : Forall (fun m => Z.of_nat off < m) (valid_from (S off) b)).
    { eapply Forall_impl; [exact Hf |]. simpl. intros m Hm. lia. }
    destruct (c =? 0).
    + split; constructor; try assumption; try lia.
      eapply Forall_impl; [exact Hf' |]. simpl. intros m Hm. lia.
    + split; [exact Hs |]. eapply Forall_impl; [exact Hf' |]. simpl. intros m Hm. lia.
Qed.

Lemma valid_from_length (b : list Z) :
  forall off, (length (valid_from off b) + occupied b = length b)%nat.
Proof.
  unfold occupied. induction b as [| c b IH]; intros off; [reflexivity |].
  rewrite valid_from_cons. simpl. specialize (IH (S off)).
  destruct (c =? 0); simpl; lia.
Qed.

(** X8.  In every state [validMoves] lists the indices of the empty
    cells, each once, in ascending order; with the non-empty cells they
    make up the board. *)
Theorem validMoves_ascending (g : TicTacToe) :
  StronglySorted Z.lt (validMoves g)
  /\ (forall m, In m (validMoves g) <-> get (board g) m = Some 0)
  /\ (length (validMoves g) + occupied (board g) = length (board g))%nat.
Proof.
  split; [exact (proj1 (valid_from_sorted (board g) 0)) |].
  split; [apply validMoves_spec | exact (valid_from_length (board g) 0)].
Qed.

Lemma consistent_validMoves_length (g : TicTacToe) :
  consistent g -> (length (validMoves g) + length (moves g) = 9)%nat.
Proof.
  intros Hg. pose proof (valid_from_length (board g) 0) as Hlen.
  now rewrite <- validMoves_valid_from, (c_count g Hg), (c_cells g Hg) in Hlen.
Qed.

(** X9.  In a reachable state the history has at most nine entries, and
    the number of valid moves is nine less the length of the history; so
    there is no valid move exactly when nine moves have been played. *)
Theorem validMoves_count (g : TicTacToe) :
  reachable g ->
  (length (moves g) <= 9)%nat
  /\ (length (validMoves g) + length (moves g) = 9)%nat
  /\ (validMoves g = [] <-> length (moves g) = 9%nat).
Proof.
  intros Hr. apply reachable_consistent in Hr.
  pose proof (consistent_validMoves_length g Hr) as Hlen.
  split; [lia |]. split; [exact Hlen |]. split.
  - intros Hnil. rewrite Hnil in Hlen. simpl in Hlen. exact Hlen.
  - intros H9. destruct (validMoves g); [reflexivity | simpl in Hlen; lia].
Qed.

Lemma validMoves_count_witness :
  (length (moves (plays [4; 0; 8]%Z)) <= 9)%nat
  /\ (length (validMoves (plays [4; 0; 8]%Z)) + length (moves (plays [4; 0; 8]%Z)) = 9)%nat
  /\ (validMoves (plays [4; 0; 8]%Z) = [] <-> length (moves (plays [4; 0; 8]%Z)) = 9%nat).
Proof.
  apply (validMoves_count (plays [4; 0; 8]%Z)). apply reachable_plays.
Defined.

(** X10.  In every state, whatever the argument, [play] succeeds
    exactly when the game is not won and the argument is one of the
    valid moves. *)
Theorem play_succeeds_iff_valid (g : TicTacToe) (move : Z) :
  fst (play move g) = true <-> isWin g = false /\ In move (validMoves g).
Proof.
  rewrite validMoves_spec.
  destruct (play_cases move g) as [(Hc & Hw & ->) | (Hrej & ->)]; simpl.
  - tauto.
  - split; [discriminate |]. intros [Hw Hc].
    destruct Hrej as [Hrej | Hrej]; [contradiction | congruence].
Qed.

(** * Further properties of the search *)

Lemma search_value_leaf (g : TicTacToe) : search_value (value (leaf g)).
Proof.
  unfold leaf, search_value. destruct (isWin g), (isDraw g); simpl; auto.
Qed.

Lemma search_value_neg (v : num) :
  search_value v -> Num.neg v = PosInf \/ search_value (Num.neg v).
Proof.
  unfold search_value. intros [-> | [-> | [-> | ->]]]; simpl; auto.
Qed.

Lemma best_among_more (visited more : list Z) (r : result) :
  best_among visited r -> best_among (visited ++ more) r.
Proof.
  intros [Hv Hm]. split; [exact Hv |].
  destruct (best_moves r) as [l |]; [| exact Hm].
  destruct Hm as [Hne Hsub]. split; [exact Hne |]. now apply sublist_inserts_r.
Qed.

Section LoopShape.

Variable recurse : num -> num -> TicTacToe -> outcome (result * TicTacToe).

Hypothesis recurse_shape :
  forall a b g, exists r, recurse a b g = Ret (r, g) /\ search_value (value r).

Lemma for_moves_shape (g : TicTacToe) :
  isWin g = false -> isDraw g = false ->
  forall (ms visited : list Z) (alpha beta : num) (best : result),
    (forall m, In m ms -> get (board g) m = Some 0) ->
    best_among visited best ->
    exists r, for_moves recurse ms alpha beta best g = Ret (r, g)
      /\ best_among (visited ++ ms) r.
Proof.
  intros Hw Hd. induction ms as [| move ms IH]; intros visited alpha beta best Hfree Hbest.
  - exists best. simpl. split; [reflexivity | now apply best_among_more].
  - assert (Hmove : get (board g) move = Some 0) by (apply Hfree; now left).
    assert (Hfree' : forall m, In m ms -> get (board g) m = Some 0)
      by (intros m Hm; apply Hfree; now right).
    simpl. rewrite (play_accepts move g Hmove Hw). simpl.
    destruct (recurse_shape (Num.neg beta) (Num.neg alpha) (played move g))
      as (child & -> & Hchild).
    rewrite (takeBack_played move g Hmove Hw Hd). simpl.
    replace (visited ++ move :: ms) with ((visited ++ [move]) ++ ms)
      by (now rewrite <- app_assoc).
    set (v := Num.neg (value child)).
    destruct (Num.geb (Num.max alpha v) beta) eqn:Hcut.
    { exists best. split; [reflexivity |]. now do 2 apply best_among_more. }
    assert (Hv : search_value v).
    { destruct (search_value_neg _ Hchild) as [Hinf | Hv]; [| exact Hv].
      exfalso. now apply (max_below_not_PosInf alpha v beta Hcut). }
    assert (Hv' : v <> NegInf).
    { unfold v. destruct Hchild as [H | [H | [H | H]]]; rewrite H; discriminate. }
    destruct (Num.geb v (value best)) eqn:Hge;
      [| apply IH; [exact Hfree' | now apply best_among_more]].
    destruct (Num.gtb v (value best)) eqn:Hgt; simpl.
    + apply IH; [exact Hfree' |]. split; [exact Hv |]. simpl.
      split; [discriminate |]. now apply sublist_inserts_l.
    + pose proof (geb_not_gtb v (value best) Hge Hgt) as Heq.
      destruct Hbest as [Hb1 Hb2].
      destruct (best_moves best) as [l |] eqn:Hl; [| congruence].
      destruct Hb2 as [_ Hb2].
      apply IH; [exact Hfree' |]. split; [exact Hb1 |]. simpl. split.
      * destruct l; discriminate.
      * now apply sublist_app.
Qed.

End LoopShape.

Lemma minimax_shape (depth : nat) :
  forall (alpha beta : num) (g : TicTacToe),
    exists r, minimax depth alpha beta g = Ret (r, g)
      /\ search_value (value r)
      /\ (isWin g = false -> isDraw g = false -> depth <> O ->
          best_among (validMoves g) r)
      /\ (best_moves r <> None ->
          isWin g = false /\ isDraw g = false /\ depth <> O).
Proof.
  induction depth as [| depth IH]; intros alpha beta g; simpl.
  - exists (leaf g). split; [reflexivity |]. split; [apply search_value_leaf |].
    split; [intros; congruence |]. unfold leaf.
    destruct (isWin g), (isDraw g); simpl; congruence.
  - destruct (isWin g) eqn:Hw; simpl.
    { exists (leaf g). split; [reflexivity |]. split; [apply search_value_leaf |].
      split; [intros; congruence |]. unfold leaf. rewrite Hw. simpl. congruence. }
    destruct (isDraw g) eqn:Hd.
    { exists (leaf g). split; [reflexivity |]. split; [apply search_value_leaf |].
      split; [intros; congruence |]. unfold leaf. rewrite Hw, Hd. simpl. congruence. }
    destruct (for_moves_shape (minimax depth)) with
      (g := g) (ms := validMoves g) (visited := @nil Z) (alpha := alpha) (beta := beta)
      (best := Result NegInf None) as (r & Hr & Hbest); try assumption.
    + intros a b g'. destruct (IH a b g') as (r & Hr & Hv & _). eauto.
    + intros m Hm. now apply validMoves_spec.
    + split; [now left | reflexivity].
    + exists r. split; [exact Hr |]. split; [apply Hbest |].
      split; [intros; exact Hbest | auto].
Qed.

Lemma sublist_sorted (l1 l2 : list Z) :
  l1 `sublist_of` l2 -> StronglySorted Z.lt l2 -> StronglySorted Z.lt l1.
Proof.
  induction 1 as [| x l1 l2 Hsub IH | x l1 l2 Hsub IH]; intros Hsorted.
  - constructor.
  - apply StronglySorted_inv in Hsorted as [Hs Hf]. constructor; [now apply IH |].
    apply Forall_forall. intros y Hy. rewrite Forall_forall in Hf. apply Hf.
    eapply elem_of_sublist; eassumption.
  - apply StronglySorted_inv in Hsorted as [Hs _]. now apply IH.
Qed.

(** X11.  On every state, with every window and depth, [minimax]
    returns and leaves the state as it found it.  The value it returns is
    -10, 0, 10 or minus infinity, and the list of moves, when there is
    one, is not empty and lists valid moves of the state in ascending
    order, each at most once. *)
Theorem minimax_returns_best_among (depth : nat) (alpha beta : num) (g : TicTacToe) :
  exists r, minimax depth alpha beta g = Ret (r, g)
    /\ search_value (value r)
    /\ forall l, best_moves r = Some l ->
         l <> [] /\ l `sublist_of` validMoves g /\ StronglySorted Z.lt l.
Proof.
  destruct (minimax_shape depth alpha beta g) as (r & Hr & Hv & Hbest & Hsome).
  exists r. split; [exact Hr |]. split; [exact Hv |].
  intros l Hl. destruct Hsome as (Hw & Hd & Hdepth); [congruence |].
  destruct (Hbest Hw Hd Hdepth) as [_ Hm]. rewrite Hl in Hm. destruct Hm as [Hne Hsub].
  split; [exact Hne |]. split; [exact Hsub |].
  apply (sublist_sorted l (validMoves g) Hsub).
  exact (proj1 (valid_from_sorted (board g) 0)).
Qed.

(** X12.  In a reachable state, with the full window, the value that
    [minimax] returns is -10, 0 or 10, and the result has a list of moves
    unless the state is won or drawn or the depth is 0. *)
Theorem minimax_full_window_result (depth : nat) (g : TicTacToe) :
  reachable g ->
  exists r, minimax depth NegInf PosInf g = Ret (r, g)
    /\ (value r = Fin (-10) \/ value r = Fin 0 \/ value r = Fin 10)
    /\ (best_moves r = None <-> isWin g = true \/ isDraw g = true \/ depth = O).
Proof.
  intros Hr. apply reachable_consistent in Hr.
  destruct (minimax_full_window depth g Hr) as (r & Hmm & [z Hz] & Hl).
  destruct (minimax_shape depth NegInf PosInf g) as (r' & Hmm' & Hv & _ & Hsome).
  rewrite Hmm in Hmm'. injection Hmm' as <-.
  exists r. split; [exact Hmm |]. split.
  - destruct Hv as [Hv | Hv]; [congruence | exact Hv].
  - split.
    + intros Hnone. destruct (isWin g) eqn:Hw; [now left |].
      destruct (isDraw g) eqn:Hd; [now right; left |].
      destruct depth as [| depth]; [now right; right |].
      destruct Hl as (l & Hsome' & _); [reflexivity | reflexivity | discriminate |].
      congruence.
    + intros Hterm. destruct (best_moves r) as [l |] eqn:Hbm; [| reflexivity].
      destruct Hsome as (Hw & Hd & Hdepth); [discriminate |].
      destruct Hterm as [H | [H | H]]; congruence.
Qed.

Lemma minimax_full_window_result_witness :
  exists r, minimax 9 NegInf PosInf (plays [4; 0; 8]) = Ret (r, plays [4; 0; 8])
    /\ (value r = Fin (-10) \/ value r = Fin 0 \/ value r = Fin 10)
    /\ (best_moves r = None <->
        isWin (plays [4; 0; 8]) = true \/ isDraw (plays [4; 0; 8]) = true \/ 9%nat = O).
Proof.
  apply (minimax_full_window_result 9 (plays [4; 0; 8])). apply reachable_plays.
Defined.

(** ** Searches of depth 0 and 1 *)

Lemma unpruned_minimax_0 (g : TicTacToe) : unpruned_minimax 0 g = leaf g.
Proof. unfold leaf. simpl. now destruct (isWin g), (isDraw g). Qed.

Lemma leaf_value (g : TicTacToe) :
  (isWin g = true /\ value (leaf g) = Fin (-10))
  \/ (isWin g = false /\ value (leaf g) = Fin 0).
Proof. unfold leaf. destruct (isWin g), (isDraw g); simpl; auto. Qed.

Lemma max_Fin_below_PosInf (alpha : num) (z : Z) :
  alpha <> PosInf ->
  Num.geb (Num.max alpha (Fin z)) PosInf = false /\ Num.max alpha (Fin z) <> PosInf.
Proof.
  intros Ha. destruct alpha as [| a |]; [| | contradiction].
  - split; [reflexivity | discriminate].
  - unfold Num.max, Num.geb. destruct (z <=? a); split; try reflexivity; discriminate.
Qed.

Lemma gtb_geb (v w : num) : Num.gtb v w = true -> Num.geb v w = true.
Proof.
  unfold Num.gtb. destruct v, w; simpl; try reflexivity; try discriminate.
  intros H. apply negb_true_iff in H. apply Z.leb_gt in H. apply Z.leb_le. lia.
Qed.

(** When the searches below return integers, and the pruned one what
    the unpruned one returns, a loop with no upper bound cuts nothing
    off. *)
Section LoopUnbounded.

Variable pruned : num -> num -> TicTacToe -> outcome (result * TicTacToe).
Variable unpruned : TicTacToe -> result.

Hypothesis pruned_unpruned : forall a b g, pruned a b g = Ret (unpruned g, g).
Hypothesis unpruned_integer : forall g, exists z, value (unpruned g) = Fin z.

Lemma for_moves_unbounded (g : TicTacToe) :
  isWin g = false -> isDraw g = false ->
  forall (ms : list Z) (alpha : num) (best : result),
    (forall m, In m ms -> get (board g) m = Some 0) ->
    alpha <> PosInf ->
    (best_moves best = None -> value best = NegInf) ->
    for_moves pruned ms alpha PosInf best g = Ret (collect_best unpruned ms best g, g).
Proof.
  intros Hw Hd. induction ms as [| move ms IH]; intros alpha best Hfree Ha Hbest;
    [reflexivity |].
  assert (Hmove : get (board g) move = Some 0) by (apply Hfree; now left).
  assert (Hfree' : forall m, In m ms -> get (board g) m = Some 0)
    by (intros m Hm; apply Hfree; now right).
  simpl. rewrite (play_accepts move g Hmove Hw). simpl.
  rewrite pruned_unpruned, (takeBack_played move g Hmove Hw Hd). simpl.
  destruct (unpruned_integer (played move g)) as [z Hz]. rewrite Hz.
  change (Num.neg (Fin z)) with (Fin (- z)).
  destruct (max_Fin_below_PosInf alpha (- z) Ha) as [-> Ha'].
  destruct (Num.gtb (Fin (- z)) (value best)) eqn:Hgt.
  - rewrite (gtb_geb _ _ Hgt). simpl. apply IH; [exact Hfree' | exact Ha' | discriminate].
  - destruct (Num.geb (Fin (- z)) (value best)) eqn:Hge; [| now apply IH].
    pose proof (geb_not_gtb _ _ Hge Hgt) as Heq.
    destruct (best_moves best) as [l |] eqn:Hl.
    + simpl. apply IH; [exact Hfree' | exact Ha' | discriminate].
    + rewrite (Hbest eq_refl) in Heq. discriminate.
Qed.

End LoopUnbounded.

Lemma minimax_0 (alpha beta : num) (g : TicTacToe) :
  minimax 0 alpha beta g = Ret (unpruned_minimax 0 g, g).
Proof. simpl. now rewrite <- unpruned_minimax_0. Qed.

Lemma unpruned_minimax_0_integer (g : TicTacToe) :
  exists z, value (unpruned_minimax 0 g) = Fin z.
Proof.
  rewrite unpruned_minimax_0. destruct (leaf_value g) as [[_ ->] | [_ ->]]; eauto.
Qed.

(** X13.  At depth 0 and at depth 1, on every state, [minimax] with the
    full window returns what the search without pruning returns: the same
    value and the same list of best moves. *)
Theorem shallow_minimax_is_unpruned (depth : nat) (g : TicTacToe) :
  (depth <= 1)%nat ->
  minimax depth NegInf PosInf g = Ret (unpruned_minimax depth g, g).
Proof.
  intros Hdepth. destruct depth as [| [| depth]]; [| | lia].
  - simpl. now rewrite <- unpruned_minimax_0.
  - change (minimax 1 NegInf PosInf g) with
      (if isWin g || isDraw g then Ret (leaf g, g)
       else for_moves (minimax 0) (validMoves g) NegInf PosInf (Result NegInf None) g).
    change (unpruned_minimax 1 g) with
      (if isWin g then Result (Fin (-10)) None
       else if isDraw g then Result (Fin 0) None
       else collect_best (unpruned_minimax 0) (validMoves g) (Result NegInf None) g).
    unfold leaf. destruct (isWin g) eqn:Hw; [reflexivity |].
    destruct (isDraw g) eqn:Hd; [reflexivity |]. simpl.
    apply (for_moves_unbounded (minimax 0) (unpruned_minimax 0)
             (fun a b g' => minimax_0 a b g') unpruned_minimax_0_integer);
      try assumption; try discriminate; try reflexivity.
    intros m Hm. now apply validMoves_spec.
Qed.

Lemma shallow_minimax_is_unpruned_witness :
  minimax 1 NegInf PosInf (plays [0; 1; 2; 3; 4; 6])
  = Ret (unpruned_minimax 1 (plays [0; 1; 2; 3; 4; 6]), plays [0; 1; 2; 3; 4; 6]).
Proof.
  apply (shallow_minimax_is_unpruned 1 (plays [0; 1; 2; 3; 4; 6])). lia.
Defined.

Lemma minimax_1_collect (g : TicTacToe) :
  isWin g = false -> isDraw g = false ->
  minimax 1 NegInf PosInf g
  = Ret (collect_best (unpruned_minimax 0) (validMoves g) (Result NegInf None) g, g).
Proof.
  intros Hw Hd.
  change (minimax 1 NegInf PosInf g) with
    (if isWin g || isDraw g then Ret (leaf g, g)
     else for_moves (minimax 0) (validMoves g) NegInf PosInf (Result NegInf None) g).
  rewrite Hw, Hd. simpl.
  apply (for_moves_unbounded (minimax 0) (unpruned_minimax 0)
           (fun a b g' => minimax_0 a b g') unpruned_minimax_0_integer);
    try assumption; try discriminate; try reflexivity.
  intros m Hm. now apply validMoves_spec.
Qed.

Lemma value_after_move (g : TicTacToe) (move : Z) :
  (wins_at_once g move
   /\ Num.neg (value (unpruned_minimax 0 (snd (play move g)))) = Fin 10)
  \/ (~ wins_at_once g move
      /\ Num.neg (value (unpruned_minimax 0 (snd (play move g)))) = Fin 0).
Proof.
  unfold wins_at_once. rewrite unpruned_minimax_0.
  destruct (leaf_value (snd (play move g))) as [[Hw ->] | [Hw ->]]; simpl.
  - now left.
  - right. split; [congruence | reflexivity].
Qed.

Section CollectDepth1.

Variable g : TicTacToe.
Variable allowed : list Z.
Variable below : TicTacToe -> result.

Hypothesis below_value : forall move,
  (wins_at_once g move /\ Num.neg (value (below (snd (play move g)))) = Fin 10)
  \/ (~ wins_at_once g move /\ Num.neg (value (below (snd (play move g)))) = Fin 0).

Lemma best_at_depth_1_reset (move : Z) (z : Z) :
  In move allowed -> (z = 0 \/ (z = 10 /\ wins_at_once g move)) ->
  best_at_depth_1 g allowed (Result (Fin z) (Some [move])).
Proof.
  intros Hin Hz. right. exists [move]. split; [reflexivity |].
  split; [discriminate |]. split; [now intros m [<- | []] |].
  destruct Hz as [-> | [-> Hwin]]; [now left | right].
  split; [reflexivity |]. now intros m [<- | []].
Qed.

Lemma best_at_depth_1_push (move : Z) (z : Z) (l : list Z) :
  In move allowed -> (forall m, In m l -> In m allowed) ->
  (z = 0 \/ (z = 10 /\ wins_at_once g move /\ forall m, In m l -> wins_at_once g m)) ->
  best_at_depth_1 g allowed (Result (Fin z) (Some (l ++ [move]))).
Proof.
  intros Hin Hl Hz. right. exists (l ++ [move]). split; [reflexivity |].
  split; [destruct l; discriminate |]. split.
  - intros m Hm. apply in_app_or in Hm as [Hm | [<- | []]]; auto.
  - destruct Hz as [-> | (-> & Hwin & Hwins)]; [now left | right].
    split; [reflexivity |]. intros m Hm.
    apply in_app_or in Hm as [Hm | [<- | []]]; auto.
Qed.

Lemma collect_best_depth_1 :
  forall (ms : list Z) (best : result),
    (forall m, In m ms -> In m allowed) ->
    best_at_depth_1 g allowed best ->
    best_at_depth_1 g allowed (collect_best below ms best g)
    /\ (value best = Fin 10 \/ (exists m, In m ms /\ wins_at_once g m) ->
        value (collect_best below ms best g) = Fin 10).
Proof.
  induction ms as [| move ms IH]; intros best Hall Hbest.
  - simpl. split; [exact Hbest |]. intros [H | (m & [] & _)]. exact H.
  - assert (Hin : In move allowed) by (apply Hall; now left).
    assert (Hall' : forall m, In m ms -> In m allowed)
      by (intros m Hm; apply Hall; now right).
    assert (Hstep : forall best',
               best_at_depth_1 g allowed best' ->
               (value best = Fin 10 \/ wins_at_once g move -> value best' = Fin 10) ->
               best_at_depth_1 g allowed (collect_best below ms best' g)
               /\ (value best = Fin 10
                   \/ (exists m, In m (move :: ms) /\ wins_at_once g m) ->
                   value (collect_best below ms best' g) = Fin 10)).
    { intros best' Hshape Hten. destruct (IH best' Hall' Hshape) as [IH1 IH2].
      split; [exact IH1 |].
      intros [H | (m & [<- | Hm] & Hwin)]; apply IH2; eauto. }
    cbn [collect_best].
    destruct (below_value move) as [[Hwin ->] | [Hlose ->]];
      destruct Hbest as [[Hv Hm] | (l & Hm & Hl & Hallowed & [Hv | [Hv Hwins]])];
      rewrite Hv in Hstep |- *.
    + change (Num.gtb (Fin 10) NegInf) with true. cbv iota.
      apply Hstep; [apply best_at_depth_1_reset; auto | reflexivity].
    + change (Num.gtb (Fin 10) (Fin 0)) with true. cbv iota.
      apply Hstep; [apply best_at_depth_1_reset; auto | reflexivity].
    + change (Num.gtb (Fin 10) (Fin 10)) with false.
      change (Num.geb (Fin 10) (Fin 10)) with true. cbv iota. rewrite Hm.
      apply Hstep; [apply best_at_depth_1_push; auto | reflexivity].
    + change (Num.gtb (Fin 0) NegInf) with true. cbv iota.
      apply Hstep; [apply best_at_depth_1_reset; auto |].
      intros [H | H]; [discriminate | contradiction].
    + change (Num.gtb (Fin 0) (Fin 0)) with false.
      change (Num.geb (Fin 0) (Fin 0)) with true. cbv iota. rewrite Hm.
      apply Hstep; [apply best_at_depth_1_push; auto |].
      intros [H | H]; [discriminate | contradiction].
    + change (Num.gtb (Fin 0) (Fin 10)) with false.
      change (Num.geb (Fin 0) (Fin 10)) with false. cbv iota.
      apply Hstep; [| intros; exact Hv].
      right. exists l. rewrite Hv. auto 10.
Qed.

End CollectDepth1.

(** X14.  A search of depth 1 does not miss a win: in a state that is
    neither won nor drawn and has a valid move after which the game is
    won, [goodMove(1)] returns a valid move after which the game is
    won. *)
Theorem goodMove_1_takes_win (random_index : nat -> nat) (g : TicTacToe) (move : Z) :
  isWin g = false -> isDraw g = false ->
  In move (validMoves g) -> wins_at_once g move ->
  (forall n, (0 < n)%nat -> (random_index n < n)%nat) ->
  exists m, goodMove random_index 1 g = Ret (Some m, g)
    /\ In m (validMoves g) /\ wins_at_once g m.
Proof.
  intros Hw Hd Hin Hwin Hrandom.
  unfold goodMove. rewrite (minimax_1_collect g Hw Hd).
  destruct (collect_best_depth_1 g (validMoves g) (unpruned_minimax 0)
              (value_after_move g) (validMoves g) (Result NegInf None))
    as [Hshape Hvalue]; [auto | now left |].
  assert (Hten : value (collect_best (unpruned_minimax 0) (validMoves g)
                          (Result NegInf None) g) = Fin 10)
    by (apply Hvalue; right; eauto).
  destruct Hshape as [[Hv _] | (l & Hm & Hl & Hallowed & [Hv | [_ Hwins]])];
    [congruence | congruence |].
  rewrite Hm.
  assert (Hlt : (random_index (length l) < length l)%nat).
  { apply Hrandom. destruct l; [contradiction | simpl; lia]. }
  apply lookup_lt_is_Some in Hlt as [m Hlookup].
  assert (Hml : In m l).
  { apply list_elem_of_In, list_elem_of_lookup. eauto. }
  exists m. rewrite Hlookup. auto.
Qed.

Lemma goodMove_1_takes_win_witness :
  exists m, goodMove (fun _ => O) 1 (plays [0; 1; 2; 3; 4; 6])
            = Ret (Some m, plays [0; 1; 2; 3; 4; 6])
    /\ In m (validMoves (plays [0; 1; 2; 3; 4; 6]))
    /\ wins_at_once (plays [0; 1; 2; 3; 4; 6]) m.
Proof.
  apply (goodMove_1_takes_win (fun _ => O) (plays [0; 1; 2; 3; 4; 6]) 8);
    [reflexivity | reflexivity | vm_compute; auto | vm_compute; reflexivity
    | intros n Hn; exact Hn].
Defined.

(** ** Depths beyond the end of the game *)

Section LoopExt.

Variables deep deeper : num -> num -> TicTacToe -> outcome (result * TicTacToe).

Hypothesis deep_returns : forall a b g, exists r, deep a b g = Ret (r, g).

Lemma for_moves_ext (g : TicTacToe) :
  isWin g = false -> isDraw g = false ->
  forall (ms : list Z) (alpha beta : num) (best : result),
    (forall m, In m ms -> get (board g) m = Some 0) ->
    (forall m, In m ms -> forall a b, deep a b (played m g) = deeper a b (played m g)) ->
    for_moves deep ms alpha beta best g = for_moves deeper ms alpha beta best g.
Proof.
  intros Hw Hd. induction ms as [| move ms IH]; intros alpha beta best Hfree Hsame;
    [reflexivity |].
  assert (Hmove : get (board g) move = Some 0) by (apply Hfree; now left).
  assert (Hfree' : forall m, In m ms -> get (board g) m = Some 0)
    by (intros m Hm; apply Hfree; now right).
  assert (Hsame' : forall m, In m ms ->
                     forall a b, deep a b (played m g) = deeper a b (played m g))
    by (intros m Hm; apply Hsame; now right).
  simpl. rewrite (play_accepts move g Hmove Hw). simpl.
  rewrite <- (Hsame move (or_introl eq_refl)).
  destruct (deep_returns (Num.neg beta) (Num.neg alpha) (played move g)) as (child & ->).
  rewrite (takeBack_played move g Hmove Hw Hd). simpl.
  destruct (Num.geb (Num.max alpha (Num.neg (value child))) beta); [reflexivity |].
  destruct (Num.geb (Num.neg (value child)) (value best)); [| now apply IH].
  destruct (best_moves (if Num.gtb (Num.neg (value child)) (value best)
                        then Result (Num.neg (value child)) (Some []) else best));
    [now apply IH | reflexivity].
Qed.

End LoopExt.

Lemma minimax_terminal (depth : nat) (alpha beta : num) (g : TicTacToe) :
  isWin g || isDraw g = true -> minimax depth alpha beta g = Ret (leaf g, g).
Proof. intros H. destruct depth; simpl; [reflexivity | now rewrite H]. Qed.

Lemma consistent_full_terminal (g : TicTacToe) :
  consistent g -> validMoves g = [] -> isWin g || isDraw g = true.
Proof.
  intros Hg Hnil. destruct (isWin g) eqn:Hw; [reflexivity |].
  destruct (isDraw g) eqn:Hd; [reflexivity |].
  now destruct (consistent_has_move g Hg Hw Hd).
Qed.

Lemma minimax_saturates (depth : nat) :
  forall (depth' : nat) (alpha beta : num) (g : TicTacToe),
    consistent g ->
    (length (validMoves g) <= depth)%nat -> (length (validMoves g) <= depth')%nat ->
    minimax depth alpha beta g = minimax depth' alpha beta g.
Proof.
  induction depth as [| depth IH]; intros depth' alpha beta g Hg Hd Hd'.
  - assert (Hterm : isWin g || isDraw g = true).
    { apply (consistent_full_terminal g Hg). destruct (validMoves g); [reflexivity |].
      simpl in Hd. lia. }
    now rewrite !minimax_terminal.
  - destruct (isWin g || isDraw g) eqn:Hterm; [now rewrite !minimax_terminal |].
    apply orb_false_iff in Hterm as [Hw Hdraw].
    pose proof (consistent_has_move g Hg Hw Hdraw) as Hmoves.
    destruct depth' as [| depth'].
    { destruct (validMoves g); [contradiction | simpl in Hd'; lia]. }
    simpl. rewrite Hw, Hdraw. simpl.
    apply for_moves_ext; try assumption.
    + intros a b g'. destruct (minimax_returns depth a b g') as (r & Hr & _). eauto.
    + intros m Hm. now apply validMoves_spec.
    + intros m Hm a b. apply validMoves_spec in Hm.
      pose proof (consistent_played g m Hg Hm) as Hg'.
      pose proof (consistent_validMoves_length g Hg) as Hlen.
      pose proof (consistent_validMoves_length _ Hg') as Hlen'.
      simpl in Hlen'. rewrite length_app in Hlen'. simpl in Hlen'.
      apply IH; [exact Hg' | |];
        change (moves g ++ [m]) with (moves (played m g)) in Hlen'; lia.
Qed.

(** X15.  In a reachable state, two depths that are both at least the
    number of empty cells give the same search result, with every
    window: the search ends with the game, and depth beyond that point
    changes nothing.  In particular every depth from 9 on acts as depth
    9. *)
Theorem depth_beyond_end_is_same (depth depth' : nat) (alpha beta : num) (g : TicTacToe) :
  reachable g ->
  (length (validMoves g) <= depth)%nat -> (length (validMoves g) <= depth')%nat ->
  minimax depth alpha beta g = minimax depth' alpha beta g.
Proof.
  intros Hr. apply minimax_saturates. now apply reachable_consistent.
Qed.

Lemma depth_beyond_end_is_same_witness :
  minimax 9 NegInf PosInf (plays [0; 4]) = minimax 7 NegInf PosInf (plays [0; 4]).
Proof.
  apply (depth_beyond_end_is_same 9 7 NegInf PosInf (plays [0; 4]));
    [apply reachable_plays | vm_compute; lia | vm_compute; lia].
Defined.

(** * Properties of the page *)

Lemma goodMove_state (random_index : nat -> nat) (depth : nat) (g g' : TicTacToe)
    (x : option Z) :
  goodMove random_index depth g = Ret (x, g') -> g' = g.
Proof.
  unfold goodMove. destruct (minimax_returns depth NegInf PosInf g) as (r & -> & _).
  destruct (best_moves r); [| discriminate]. now intros [= _ <-].
Qed.

Lemma reachable_play_value (x : option Z) (g : TicTacToe) :
  reachable g -> reachable (snd (play_value x g)).
Proof. intros Hr. destruct x as [move |]; simpl; [now apply reach_play | exact Hr]. Qed.

Lemma computerMove_invariant (p : Page) :
  reachable (game p) -> human p = 1 \/ human p = 2 ->
  reachable (game (fst (computerMove p)))
  /\ (human (fst (computerMove p)) = 1 \/ human (fst (computerMove p)) = 2).
Proof.
  intros Hr Hh. unfold computerMove.
  destruct (isWin (game p) || isDraw (game p)); simpl; [auto |].
  split; [exact Hr |]. destruct (turn_values (game p)) as [-> | ->]; auto.
Qed.

(** On every page the game is in a reachable state and [human] is 1 or
    2. *)
Lemma page_invariant (p : Page) (n : nat) :
  page_reachable p n -> reachable (game p) /\ (human p = 1 \/ human p = 2).
Proof.
  induction 1 as [| p n Hp IH | p n i Hp [IHr IHh] | p n Hp [IHr IHh]
                 | p n Hp [IHr IHh] | p n random_index depth Hp [IHr IHh]].
  - split; [apply reach_new | now left].
  - split; [apply reach_new | now left].
  - unfold humanMove. destruct (turn (game p) =? human p); simpl; [| auto].
    pose proof (reach_play i (game p) IHr) as Hr'.
    destruct (play i (game p)) as [ok g]. simpl in Hr'.
    destruct ok; simpl; [| auto].
    now apply computerMove_invariant.
  - now apply computerMove_invariant.
  - split; [now apply reach_takeBack | exact IHh].
  - unfold after_timer, cpu_plays.
    destruct (goodMove random_index depth (game p)) as [[x g] |] eqn:Hgood; [| auto].
    apply goodMove_state in Hgood as ->. simpl.
    split; [now apply reachable_play_value | exact IHh].
Qed.

(** X16.  What the page announces is what the board shows.  On every
    page that events lead to, the message is the draw message exactly
    when the game is drawn; and when the game is won, the message names a
    winner, "You won" exactly when the full lines of the board hold the
    mark of [human], and "CPU won" exactly when they hold the other
    mark. *)
Theorem announcement_matches_board (p : Page) (n : nat) :
  page_reachable p n ->
  (message p = "It's a draw"%string <-> isDraw (game p) = true)
  /\ (isWin (game p) = true ->
      (message p = "You won"%string \/ message p = "CPU won"%string)
      /\ forall i j k x,
           In (i, j, k) winning_triples -> x <> 0 ->
           board (game p) !! i = Some x -> board (game p) !! j = Some x ->
           board (game p) !! k = Some x ->
           (message p = "You won"%string <-> x = human p)
           /\ (message p = "CPU won"%string <-> x = 3 - human p)).
Proof.
  intros Hp. destruct (page_invariant p n Hp) as [Hr Hh].
  pose proof (c_draw _ (reachable_consistent _ Hr)) as Hdraw.
  split.
  - unfold message. destruct (isWin (game p)) eqn:Hw.
    + rewrite Hdraw. simpl.
      destruct (turn (game p) =? human p); split; discriminate.
    + destruct (isDraw (game p)); [tauto |].
      destruct (turn (game p) =? human p); split; discriminate.
  - intros Hw. unfold message. rewrite Hw. split.
    { destruct (turn (game p) =? human p); auto. }
    intros i j k x Hin Hx Hi Hj Hk.
    assert (Hlast : x = 3 - turn (game p)).
    { destruct (reachable_legal (game p) Hr) as (ms & Hl & Heq). rewrite <- Heq in *.
      now apply (legal_full_line ms i j k x). }
    pose proof (turn_values (game p)) as Ht.
    destruct (Z.eqb_spec (turn (game p)) (human p)) as [Heq | Hne]; split; split;
      try discriminate; try reflexivity; intros; lia.
Qed.

Lemma announcement_matches_board_witness :
  (message (fst (humanMove 4 newGame)) = "It's a draw"%string
   <-> isDraw (game (fst (humanMove 4 newGame))) = true)
  /\ (isWin (game (fst (humanMove 4 newGame))) = true ->
      (message (fst (humanMove 4 newGame)) = "You won"%string
       \/ message (fst (humanMove 4 newGame)) = "CPU won"%string)
      /\ forall i j k x,
           In (i, j, k) winning_triples -> x <> 0 ->
           board (game (fst (humanMove 4 newGame))) !! i = Some x ->
           board (game (fst (humanMove 4 newGame))) !! j = Some x ->
           board (game (fst (humanMove 4 newGame))) !! k = Some x ->
           (message (fst (humanMove 4 newGame)) = "You won"%string <-> x = human (fst (humanMove 4 newGame)))
           /\ (message (fst (humanMove 4 newGame)) = "CPU won"%string
               <-> x = 3 - human (fst (humanMove 4 newGame)))).
Proof.
  apply (announcement_matches_board (fst (humanMove 4 newGame))
           (0 + scheduled (snd (humanMove 4 newGame)))).
  apply page_click, page_loaded.
Defined.

Lemma leaf_no_moves (g : TicTacToe) : best_moves (leaf g) = None.
Proof. unfold leaf. now destruct (isWin g), (isDraw g). Qed.

(** X17.  The callback of [computerMove], run on a page whose game is in
    a reachable state: it throws exactly when the game is won or drawn
    or the depth is 0; otherwise it plays a valid move of the game, which
    [play] accepts, and leaves [human] as it is. *)
Theorem cpu_plays_valid_move (random_index : nat -> nat) (depth : nat) (p : Page) :
  reachable (game p) ->
  (forall n, (0 < n)%nat -> (random_index n < n)%nat) ->
  (cpu_plays random_index depth p = TypeError <->
   isWin (game p) = true \/ isDraw (game p) = true \/ depth = O)
  /\ (forall p', cpu_plays random_index depth p = Ret p' ->
      exists m, In m (validMoves (game p))
        /\ play m (game p) = (true, game p')
        /\ moves (game p') = moves (game p) ++ [m]
        /\ human p' = human p).
Proof.
  intros Hr Hrandom. unfold cpu_plays, goodMove.
  destruct (isWin (game p) || isDraw (game p)) eqn:Hterm.
  { rewrite (minimax_terminal _ _ _ _ Hterm), leaf_no_moves.
    split; [| discriminate]. split; [| reflexivity]. intros _.
    apply orb_true_iff in Hterm. tauto. }
  apply orb_false_iff in Hterm as [Hw Hd].
  destruct depth as [| depth].
  { simpl. rewrite leaf_no_moves. split; [| discriminate].
    split; [auto | reflexivity]. }
  destruct (minimax_full_window (S depth) (game p) (reachable_consistent _ Hr))
    as (r & -> & _ & Hl).
  destruct Hl as (l & -> & Hne & Hvalid); [exact Hw | exact Hd | discriminate |].
  assert (Hlt : (random_index (length l) < length l)%nat).
  { apply Hrandom. destruct l; [contradiction | simpl; lia]. }
  apply lookup_lt_is_Some in Hlt as [m Hm]. rewrite Hm. simpl.
  assert (Hin : In m (validMoves (game p))).
  { apply Hvalid, list_elem_of_In, list_elem_of_lookup. eauto. }
  split.
  - split; [discriminate |]. intros [H | [H | H]]; congruence.
  - intros p' [= <-]. exists m. simpl.
    apply validMoves_spec in Hin as Hc.
    rewrite (play_accepts m (game p) Hc Hw). auto.
Qed.

Lemma cpu_plays_valid_move_witness :
  (cpu_plays (fun _ => O) 1 newGame = TypeError <->
   isWin (game newGame) = true \/ isDraw (game newGame) = true \/ 1%nat = O)
  /\ (forall p', cpu_plays (fun _ => O) 1 newGame = Ret p' ->
      exists m, In m (validMoves (game newGame))
        /\ play m (game newGame) = (true, game p')
        /\ moves (game p') = moves (game newGame) ++ [m]
        /\ human p' = human newGame).
Proof.
  apply (cpu_plays_valid_move (fun _ => O) 1 newGame);
    [apply reach_new | intros n Hn; exact Hn].
Defined.

(** X18.  A move of the computer, from the button to the end of the
    callback, with no other event in between: on a page whose game is in
    a reachable state and neither won nor drawn, with a positive depth,
    [computerMove] schedules the callback, and the callback, run on the
    page exactly as [computerMove] left it, adds one move to the history,
    after which it is the turn of [human].  An event that changes the
    page before the callback runs is not covered; the callback is then
    described by the preceding theorem. *)
Theorem computerMove_then_callback (random_index : nat -> nat) (depth : nat) (p : Page) :
  reachable (game p) ->
  isWin (game p) = false -> isDraw (game p) = false -> (0 < depth)%nat ->
  (forall n, (0 < n)%nat -> (random_index n < n)%nat) ->
  snd (computerMove p) = true
  /\ exists p', cpu_plays random_index depth (fst (computerMove p)) = Ret p'
       /\ length (moves (game p')) = S (length (moves (game p)))
       /\ turn (game p') = human p'
       /\ human p' = 3 - turn (game p).
Proof.
  intros Hr Hw Hd Hdepth Hrandom. unfold computerMove. rewrite Hw, Hd. simpl.
  split; [reflexivity |]. unfold cpu_plays, goodMove. simpl.
  destruct (minimax_full_window depth (game p) (reachable_consistent _ Hr))
    as (r & -> & _ & Hl).
  destruct Hl as (l & -> & Hne & Hvalid); [exact Hw | exact Hd | lia |].
  assert (Hlt : (random_index (length l) < length l)%nat).
  { apply Hrandom. destruct l; [contradiction | simpl; lia]. }
  apply lookup_lt_is_Some in Hlt as [m Hm]. rewrite Hm. simpl.
  assert (Hc : get (board (game p)) m = Some 0).
  { apply validMoves_spec, Hvalid, list_elem_of_In, list_elem_of_lookup. eauto. }
  rewrite (play_accepts m (game p) Hc Hw). simpl.
  eexists. split; [reflexivity |]. simpl.
  split; [rewrite length_app; simpl; lia |].
  split; [| reflexivity].
  exact (turn_played m (game p)).
Qed.

Lemma computerMove_then_callback_witness :
  snd (computerMove newGame) = true
  /\ exists p', cpu_plays (fun _ => O) 1 (fst (computerMove newGame)) = Ret p'
       /\ length (moves (game p')) = S (length (moves (game newGame)))
       /\ turn (game p') = human p'
       /\ human p' = 3 - turn (game newGame).
Proof.
  apply (computerMove_then_callback (fun _ => O) 1 newGame);
    [apply reach_new | reflexivity | reflexivity | lia | intros n Hn; exact Hn].
Defined.

(** X19.  A click never changes which side [human] plays, whatever the
    page.  It changes the game only when it is the turn of [human], and
    then as [play] does; and it schedules a move of the computer exactly
    when it is the turn of [human], [play] accepts the cell, and the game
    is then neither won nor drawn. *)
Theorem humanMove_effect (i : Z) (p : Page) :
  human (fst (humanMove i p)) = human p
  /\ game (fst (humanMove i p))
     = (if turn (game p) =? human p then snd (play i (game p)) else game p)
  /\ (snd (humanMove i p) = true <->
      turn (game p) = human p
      /\ fst (play i (game p)) = true
      /\ isWin (snd (play i (game p))) = false
      /\ isDraw (snd (play i (game p))) = false).
Proof.
  unfold humanMove.
  destruct (Z.eqb_spec (turn (game p)) (human p)) as [Heq | Hne]; simpl.
  2: { split; [reflexivity |]. split; [reflexivity |].
       split; [discriminate | intros [H _]; contradiction]. }
  destruct (play_cases i (game p)) as [(Hc & Hw & ->) | (_ & ->)]; cbn [fst snd negb].
  - unfold computerMove. cbn [game human].
    destruct (isWin (played i (game p))) eqn:Hw'; cbn [orb fst snd game human].
    { split; [reflexivity |]. split; [reflexivity |].
      split; [discriminate | intros (_ & _ & H & _); discriminate]. }
    destruct (isDraw (played i (game p))) eqn:Hd'; cbn [orb fst snd game human].
    { split; [reflexivity |]. split; [reflexivity |].
      split; [discriminate | intros (_ & _ & _ & H); discriminate]. }
    split; [rewrite turn_played; lia |]. split; [reflexivity |].
    split; auto.
  - cbn [fst snd game human]. split; [reflexivity |]. split; [reflexivity |].
    split; [discriminate | intros (_ & H & _); discriminate].
Qed.

(** X20.  The cell that a click reports is the cell that [display]
    painted: each of the nine indices is painted at a row and a column
    below 3, from which the click handler computes the index again, and
    the handler's index of a row and a column below 3 is painted there. *)
Theorem clicked_cell_is_painted_cell :
  (forall i : nat, (i < 9)%nat ->
     (cell_row i < 3)%nat /\ (cell_col i < 3)%nat
     /\ clicked_index (cell_row i) (cell_col i) = i)
  /\ (forall row col : nat, (row < 3)%nat -> (col < 3)%nat ->
        (clicked_index row col < 9)%nat
        /\ cell_row (clicked_index row col) = row
        /\ cell_col (clicked_index row col) = col).
Proof.
  unfold cell_row, cell_col, clicked_index. split.
  - intros i Hi.
    pose proof (Nat.div_mod_eq i 3). pose proof (Nat.mod_upper_bound i 3).
    assert (i / 3 < 3)%nat by (apply Nat.Div0.div_lt_upper_bound; lia).
    lia.
  - intros row col Hrow Hcol. split; [lia |]. split.
    + rewrite Nat.div_add_l by lia. rewrite (Nat.div_small col 3) by lia. lia.
    + rewrite Nat.add_comm, Nat.Div0.mod_add. now apply Nat.mod_small.
Qed.

(** * Further properties of finished games *)

(** X21.  In a reachable state [isDraw] is true exactly when no cell is
    empty and the board holds no full line. *)
Theorem isDraw_reflects_board (g : TicTacToe) :
  reachable g ->
  isDraw g = true <-> validMoves g = [] /\ has_line (board g) = false.
Proof.
  intros Hr. pose proof (reachable_consistent g Hr) as Hg.
  destruct (reachable_legal g Hr) as (ms & Hl & Heq).
  pose proof (legal_isWin ms Hl) as Hwin. rewrite Heq in Hwin.
  pose proof (consistent_validMoves_length g Hg) as Hlen.
  rewrite (c_draw g Hg), <- Hwin. split.
  - intros H. apply andb_true_iff in H as [Hw H9].
    apply negb_true_iff in Hw. apply Nat.eqb_eq in H9.
    split; [| exact Hw]. destruct (validMoves g); [reflexivity | simpl in Hlen; lia].
  - intros [Hnil Hw]. rewrite Hw, Hnil in *. simpl in *.
    apply Nat.eqb_eq. lia.
Qed.

Lemma isDraw_reflects_board_witness :
  isDraw (plays [0; 1; 2; 4; 3; 5; 7; 6; 8]) = true <->
  validMoves (plays [0; 1; 2; 4; 3; 5; 7; 6; 8]) = []
  /\ has_line (board (plays [0; 1; 2; 4; 3; 5; 7; 6; 8])) = false.
Proof.
  apply (isDraw_reflects_board (plays [0; 1; 2; 4; 3; 5; 7; 6; 8])).
  apply reachable_plays.
Defined.

(** X22.  In a reachable state that is won or drawn, [play] fails for
    every argument and leaves the state as it is: only [takeBack] leads
    out of a finished game. *)
Theorem finished_game_rejects_play (g : TicTacToe) (move : Z) :
  reachable g -> isWin g = true \/ isDraw g = true ->
  play move g = (false, g).
Proof.
  intros Hr [Hw | Hd]; apply play_rejects; [now right | left].
  pose proof (reachable_consistent g Hr) as Hg.
  pose proof (consistent_validMoves_length g Hg) as Hlen.
  rewrite (c_draw g Hg) in Hd. apply andb_true_iff in Hd as [_ H9].
  apply Nat.eqb_eq in H9. intros Hc. apply validMoves_spec in Hc.
  destruct (validMoves g); [exact Hc | simpl in Hlen; lia].
Qed.

Lemma finished_game_rejects_play_witness :
  play 5 (plays [0; 3; 1; 4; 2]) = (false, plays [0; 3; 1; 4; 2]).
Proof.
  apply (finished_game_rejects_play (plays [0; 3; 1; 4; 2]) 5);
    [apply reachable_plays | left; vm_compute; reflexivity].
Defined.

(** X23.  On every page that events lead to, [display] paints the nine
    cells, cell [i] at row [i / 3] and column [i mod 3], with the class
    name of a space for an empty cell, X for a mark of player 1 and O for
    a mark of player 2: no cell is left without a class name. *)
Theorem display_paints_marks (p : Page) (n : nat) :
  page_reachable p n ->
  length (painted_cells p) = 9%nat
  /\ forall i row col cls,
       painted_cells p !! i = Some (row, col, cls) ->
       row = cell_row i /\ col = cell_col i
       /\ ((cls = Some " "%char /\ board (game p) !! i = Some 0)
           \/ (cls = Some "X"%char /\ board (game p) !! i = Some 1)
           \/ (cls = Some "O"%char /\ board (game p) !! i = Some 2)).
Proof.
  intros Hp. destruct (page_invariant p n Hp) as [Hr _].
  apply reachable_consistent in Hr. unfold painted_cells. split.
  - rewrite length_imap. apply (c_cells _ Hr).
  - intros i row col cls Hi. apply list_lookup_imap_Some in Hi as (c & Hc & Heq).
    injection Heq as -> -> ->. split; [reflexivity |]. split; [reflexivity |].
    pose proof (consistent_cells _ Hr) as Hcells.
    rewrite Forall_lookup in Hcells.
    destruct (Hcells i c Hc) as [-> | [-> | ->]]; auto.
Qed.

Lemma display_paints_marks_witness :
  length (painted_cells newGame) = 9%nat
  /\ forall i row col cls,
       painted_cells newGame !! i = Some (row, col, cls) ->
       row = cell_row i /\ col = cell_col i
       /\ ((cls = Some " "%char /\ board (game newGame) !! i = Some 0)
           \/ (cls = Some "X"%char /\ board (game newGame) !! i = Some 1)
           \/ (cls = Some "O"%char /\ board (game newGame) !! i = Some 2)).
Proof.
  apply (display_paints_marks newGame 0). apply page_loaded.
Defined.
